(** * Type resolution and generic unification of the expression-language
      editor support (resolver.ts, typing.ts, nodes.ts, props.ts)

    The development embeds the resolver the way it is written:

    - a [Def] is a JavaScript value: [Null] (null / undefined), or an
      object carrying its [type] tag with the payload of that tag, the
      attributes the resolver reads ([name], [variadic], [embedded]) and the
      optional [methods] table of a registry entry.  Attributes the resolver
      only copies and never inspects (description, deprecated, required,
      package, receiver) are not represented;
    - a [Record<string, _>] is an association list in insertion order (the
      order of [Object.keys] for keys that are not array indices) with the
      object-spread merge written out;
    - property access on [Null] raises TypeError, loops and recursion through
      the type registry may not come back: both are outcomes of the
      computation ([Throws], [OutOfFuel]);
    - the syntax tree is the generic Lezer tree (typed nodes with a span and
      children), a [SyntaxNode] is a position in it. *)

From Stdlib Require Import String Ascii List ZArith Bool Arith Lia.
Import ListNotations.
Local Open Scope string_scope.
Local Open Scope list_scope.

Set Implicit Arguments.
Set Warnings "-register-all".

(** ** Outcomes of a computation *)

Inductive Outcome (A : Type) : Type :=
| Ret (a : A)        (* the call returns [a] *)
| Throws             (* a TypeError is raised (property access on null/undefined) *)
| OutOfFuel.         (* the call has not come back within the allotted steps *)

Arguments Ret {A} a.
Arguments Throws {A}.
Arguments OutOfFuel {A}.

Definition bind {A B : Type} (c : Outcome A) (k : A -> Outcome B) : Outcome B :=
  match c with
  | Ret a => k a
  | Throws => Throws
  | OutOfFuel => OutOfFuel
  end.

Notation "'let*' x ':=' c 'in' k" := (bind c (fun x => k))
  (at level 10, x name, c at level 100, k at level 200).

(** ** JavaScript records: [Record<string, V>] *)

Module Rec.
Section Records.
Variable V : Type.

Definition t := list (string * V).

(** [r[k]] when the key is present. *)
Fixpoint get (r : t) (k : string) : option V :=
  match r with
  | [] => None
  | (k', v) :: r' => if String.eqb k' k then Some v else get r' k
  end.

(** [k in r] *)
Definition has (r : t) (k : string) : bool :=
  match get r k with Some _ => true | None => false end.

(** [r[k] = v]: the value is replaced in place, a new key is appended. *)
Fixpoint set (r : t) (k : string) (v : V) : t :=
  match r with
  | [] => [(k, v)]
  | (k', v') :: r' =>
      if String.eqb k' k then (k, v) :: r' else (k', v') :: set r' k v
  end.

(** [{...a, ...b}]: the properties of [b] are assigned over those of [a]. *)
Definition spread (a b : t) : t :=
  fold_left (fun acc kv => set acc (fst kv) (snd kv)) b a.

(** [Object.keys(r)] *)
Definition keys (r : t) : list string := map fst r.
End Records.
End Rec.

(** ** The type model (typing.ts) *)

Module Kind.
(** The tags that carry no payload. *)
Inductive scalar : Set :=
| Int8 | Uint8 | Int16 | Uint16 | Int32 | Uint32 | Int64 | Uint64
| Int | Uint | Uintptr
| Float32 | Float64
| Complex64 | Complex128
| Bool | String | Byte | Rune
| Interface | Error | Any | Nil
| Number | Float.            (* ExprKind.Number, ExprKind.Float *)

(** The value of the [type] property: [Kind] and [ExprKind] together;
    [Undefined] is the value read from an object without that property. *)
Inductive t : Set :=
| Scalar (k : scalar)
| Array | Slice | Map | Func | Struct | Pointer | Channel
| Generic | Defined
| Optional                   (* ExprKind.Optional *)
| Undefined.

Definition scalar_eq_dec (a b : scalar) : {a = b} + {a <> b}.
Proof. decide equality. Defined.

Definition eq_dec (a b : t) : {a = b} + {a <> b}.
Proof. decide equality. apply scalar_eq_dec. Defined.

Definition eqb (a b : t) : bool := if eq_dec a b then true else false.
End Kind.

Record Attrs : Set := mkAttrs {
  name : option string;
  variadic : option bool;
  embedded : option bool
}.

Definition noAttrs : Attrs := mkAttrs None None None.

Inductive Shape (D : Type) : Type :=
| SScalar (k : Kind.scalar)
| SSlice (item : D)
| SArray (size : nat) (item : D)
| SMap (key value : D)
| SFunc (generics : option (list (string * list D))) (args returns : list D)
| SStruct (fields : list (string * D))
| SPointer (to : D)
| SChannel (item : D)
| SOptional (item : D)
| SGeneric (generic : option string)
| SDefined (typeName : string)
| SUntyped.

Arguments SScalar {D} k.
Arguments SSlice {D} item.
Arguments SArray {D} size item.
Arguments SMap {D} key value.
Arguments SFunc {D} generics args returns.
Arguments SStruct {D} fields.
Arguments SPointer {D} to.
Arguments SChannel {D} item.
Arguments SOptional {D} item.
Arguments SGeneric {D} generic.
Arguments SDefined {D} typeName.
Arguments SUntyped {D}.

Inductive Def : Type :=
| Null
| Obj (shape : Shape Def) (attrs : Attrs)
      (methods : option (list (string * Def))).

Definition Generics := list (string * list Def).

Record Scope : Type := mkScope {
  variables : Rec.t Def;
  types : Rec.t Def
}.

(** [t.type] on an object. *)
Definition kindOfShape {D : Type} (s : Shape D) : Kind.t :=
  match s with
  | SScalar k => Kind.Scalar k
  | SSlice _ => Kind.Slice
  | SArray _ _ => Kind.Array
  | SMap _ _ => Kind.Map
  | SFunc _ _ _ => Kind.Func
  | SStruct _ => Kind.Struct
  | SPointer _ => Kind.Pointer
  | SChannel _ => Kind.Channel
  | SOptional _ => Kind.Optional
  | SGeneric _ => Kind.Generic
  | SDefined _ => Kind.Defined
  | SUntyped => Kind.Undefined
  end.

(** [t.type]: raises on [Null]. *)
Definition type (t : Def) : Outcome Kind.t :=
  match t with
  | Null => Throws
  | Obj s _ _ => Ret (kindOfShape s)
  end.

(** Property reads on an object known to be non-null; a missing property
    reads as undefined ([Null], the empty list where a length is taken). *)
Definition item (t : Def) : Def :=
  match t with
  | Obj (SSlice i) _ _ | Obj (SArray _ i) _ _ | Obj (SChannel i) _ _
  | Obj (SOptional i) _ _ => i
  | _ => Null
  end.

Definition key (t : Def) : Def :=
  match t with Obj (SMap k _) _ _ => k | _ => Null end.

Definition value (t : Def) : Def :=
  match t with Obj (SMap _ v) _ _ => v | _ => Null end.

Definition to (t : Def) : Def :=
  match t with Obj (SPointer p) _ _ => p | _ => Null end.

Definition args (t : Def) : list Def :=
  match t with Obj (SFunc _ a _) _ _ => a | _ => [] end.

Definition returns (t : Def) : list Def :=
  match t with Obj (SFunc _ _ r) _ _ => r | _ => [] end.

Definition typeName (t : Def) : option string :=
  match t with Obj (SDefined n) _ _ => Some n | _ => None end.

Definition attrsOf (t : Def) : Attrs :=
  match t with Obj _ a _ => a | Null => noAttrs end.

(** [r[k]] on a record of Definitions: undefined when the key is absent. *)
Definition lookup (r : Rec.t Def) (k : string) : Def :=
  match Rec.get r k with Some v => v | None => Null end.

(** Plain literals [{ type: k }]. *)
Definition plain (s : Shape Def) : Def := Obj s noAttrs None.
Definition scalar (k : Kind.scalar) : Def := plain (SScalar k).
Definition named (n : string) (s : Shape Def) : Def :=
  Obj s (mkAttrs (Some n) None None) None.

(** [{...t, name}] *)
Definition withName (t : Def) (n : string) : Def :=
  match t with
  | Null => Obj SUntyped (mkAttrs (Some n) None None) None
  | Obj s a m => Obj s (mkAttrs (Some n) (variadic a) (embedded a)) m
  end.

(** ** Classification and equality (resolver.ts) *)

Definition resolveRef (s : Scope) (t : Def) : Outcome Def :=
  match t with
  | Null => Throws
  | Obj (SDefined n) _ _ =>
      if Rec.has (types s) n then Ret (lookup (types s) n) else Ret t
  | Obj _ _ _ => Ret t
  end.

(** The [while] loop of [getBaseType], one iteration per unit of fuel. *)
Fixpoint getBaseType (fuel : nat) (s : Scope) (t : Def) : Outcome Def :=
  match fuel with
  | O => OutOfFuel
  | S fuel' =>
      match t with
      | Null => Throws
      | Obj (SDefined n) _ _ =>
          if Rec.has (types s) n then getBaseType fuel' s (lookup (types s) n)
          else Ret t
      | Obj _ _ _ => Ret t
      end
  end.

Definition isNumberKind (k : Kind.t) : bool :=
  match k with
  | Kind.Scalar Kind.Int8 | Kind.Scalar Kind.Int16 | Kind.Scalar Kind.Int32
  | Kind.Scalar Kind.Int64 | Kind.Scalar Kind.Uint8 | Kind.Scalar Kind.Uint16
  | Kind.Scalar Kind.Uint32 | Kind.Scalar Kind.Uint64 | Kind.Scalar Kind.Float32
  | Kind.Scalar Kind.Float64 | Kind.Scalar Kind.Int
  | Kind.Scalar Kind.Number | Kind.Scalar Kind.Float => true
  | _ => false
  end.

Definition isNumber (t : Def) : Outcome bool :=
  let* k := type t in Ret (isNumberKind k).

Definition isSlice (t : Def) : bool :=
  match t with
  | Null => false
  | Obj s _ _ =>
      Kind.eqb (kindOfShape s) Kind.Slice || Kind.eqb (kindOfShape s) Kind.Array
  end.

Fixpoint isEquals (a b : Def) {struct a} : bool :=
  match a, b with
  | Null, _ => false
  | _, Null => false
  | Obj sa _ _, Obj sb _ _ =>
      if negb (Kind.eqb (kindOfShape sa) (kindOfShape sb)) then
        (isNumberKind (kindOfShape sa) && isNumberKind (kindOfShape sb))
        || ((Kind.eqb (kindOfShape sa) Kind.Optional
             || Kind.eqb (kindOfShape sa) Kind.Pointer)
            && Kind.eqb (kindOfShape sb) (Kind.Scalar Kind.Nil))
      else
        match sa with
        | SDefined n =>
            match typeName b with Some n' => String.eqb n n' | None => false end
        | SChannel i => isEquals i (item b)
        | SMap k v => isEquals k (key b) && isEquals v (value b)
        | SPointer p => isEquals p (to b)
        | SFunc _ aargs arets =>
            Nat.eqb (length aargs) (length (args b))
            && Nat.eqb (length arets) (length (returns b))
            && (fix every (l : list Def) (idx : nat) : bool :=
                  match l with
                  | [] => true
                  | arg :: l' =>
                      isEquals arg (nth idx (args b) Null) && every l' (S idx)
                  end) aargs 0%nat
            && (fix every (l : list Def) (idx : nat) : bool :=
                  match l with
                  | [] => true
                  | ret :: l' =>
                      isEquals ret (nth idx (returns b) Null) && every l' (S idx)
                  end) arets 0%nat
        | _ => true
        end
  end.

Definition isUnknownType (t : Def) : bool :=
  match t with
  | Null => true
  | Obj s _ _ =>
      Kind.eqb (kindOfShape s) (Kind.Scalar Kind.Any)
      || Kind.eqb (kindOfShape s) (Kind.Scalar Kind.Interface)
  end.

Definition isPredicativeFunc (name : string) : bool :=
  existsb (String.eqb name)
    ["all"; "any"; "one"; "none"; "filter"; "find";
     "findIndex"; "findLast"; "findLastIndex"; "groupBy"; "count";
     "map"; "reduce"; "sortBy"; "sum"].

(** ** Member resolver *)

(** A property used as a condition: [field.embedded]. *)
Definition truthy (b : option bool) : bool :=
  match b with Some true => true | _ => false end.

(** [if (member)]: an object is truthy, null is not. *)
Definition isObject (t : Def) : bool :=
  match t with Null => false | Obj _ _ _ => true end.

(** The [for] loops over the fields of a struct, written over the recursive
    call [recur] on the resolved type of an embedded field. *)
Section Promotion.
Variable s : Scope.
Variable fields : Rec.t Def.

Definition isEmbedded (field : Def) : Outcome bool :=
  let* k := type field in
  Ret (Kind.eqb k Kind.Defined && truthy (embedded (attrsOf field))).

Fixpoint promoteAll (recur : Def -> Outcome (Rec.t Def)) (fs : list string)
                    (members : Rec.t Def) : Outcome (Rec.t Def) :=
  match fs with
  | [] => Ret members
  | f :: fs' =>
      let field := lookup fields f in
      let* e := isEmbedded field in
      if (e : bool) then
        let* r := resolveRef s field in
        let* promoted := recur r in
        promoteAll recur fs' (Rec.spread members promoted)
      else promoteAll recur fs' members
  end.

Fixpoint promoteFirst (recur : Def -> Outcome Def) (fs : list string)
  : Outcome Def :=
  match fs with
  | [] => Ret Null
  | f :: fs' =>
      let field := lookup fields f in
      let* e := isEmbedded field in
      if (e : bool) then
        let* r := resolveRef s field in
        let* member := recur r in
        if isObject member then Ret member else promoteFirst recur fs'
      else promoteFirst recur fs'
  end.
End Promotion.

Fixpoint getMembers (fuel : nat) (s : Scope) (src : Def) : Outcome (Rec.t Def) :=
  match fuel with
  | O => OutOfFuel
  | S fuel' =>
      match src with
      | Null => Throws
      | Obj sh _ me =>
          let members : Rec.t Def :=
            match me with Some m => Rec.spread [] m | None => [] end in
          match sh with
          | SStruct fields =>
              promoteAll s fields (getMembers fuel' s) (Rec.keys fields)
                (Rec.spread members fields)
          | SDefined _ =>
              let* r := resolveRef s src in
              let* inherited := getMembers fuel' s r in
              Ret (Rec.spread members inherited)
          | _ => Ret members
          end
      end
  end.

Definition fieldsOf (sh : Shape Def) : option (Rec.t Def) :=
  match sh with SStruct fields => Some fields | _ => None end.

Fixpoint getMember (fuel : nat) (s : Scope) (src : Def) (name : string)
  : Outcome Def :=
  match fuel with
  | O => OutOfFuel
  | S fuel' =>
      match src with
      | Null => Throws
      | Obj sh _ me =>
          let direct :=
            match fieldsOf sh with
            | Some fields => Rec.get fields name
            | None => None
            end in
          let method :=
            match me with Some m => Rec.get m name | None => None end in
          match direct, method with
          | Some field, _ => Ret field
          | None, Some m => Ret m
          | None, None =>
              match sh with
              | SStruct fields =>
                  promoteFirst s fields (fun r => getMember fuel' s r name)
                    (Rec.keys fields)
              | SDefined _ =>
                  let* r := resolveRef s src in
                  let* member := getMember fuel' s r name in
                  if isObject member then Ret member else Ret Null
              | _ => Ret Null
              end
          end
      end
  end.

(** ** Generic resolver *)

(** The computed key [[t.generic]]; an absent property prints as undefined. *)
Definition genericKey (g : option string) : string :=
  match g with Some n => n | None => "undefined" end.

(** [l.reduce((acc, x, idx) => ({...acc, ...collect(x, others[idx])}), {})],
    from position [idx] on with the accumulator [acc]. *)
Section Reduce.
Variable collect : Def -> Def -> Rec.t Def.
Variable others : list Def.

Fixpoint collectEach (l : list Def) (idx : nat) (acc : Rec.t Def) : Rec.t Def :=
  match l with
  | [] => acc
  | x :: l' =>
      collectEach l' (S idx) (Rec.spread acc (collect x (nth idx others Null)))
  end.
End Reduce.

Fixpoint collectGenerics (t a : Def) {struct t} : Rec.t Def :=
  match t, a with
  | Null, _ => []
  | _, Null => []
  | Obj st _ _, Obj sa _ _ =>
      let same := Kind.eqb (kindOfShape sa) (kindOfShape st) in
      match st with
      | SGeneric g => [(genericKey g, a)]
      | SArray _ ti | SSlice ti | SChannel ti =>
          if same then collectGenerics ti (item a) else []
      | SMap tk tv =>
          if same then
            Rec.spread (collectGenerics tk (key a)) (collectGenerics tv (value a))
          else []
      | SPointer tp => if same then collectGenerics tp (to a) else []
      | SFunc _ targs trets =>
          if same then
            Rec.spread (collectEach collectGenerics (args a) targs 0 [])
                       (collectEach collectGenerics (returns a) trets 0 [])
          else []
      | _ => []
      end
  end.

(** [{...rest, ...b}] on the attributes: a property of [b] wins when present. *)
Definition orElse {A : Type} (x y : option A) : option A :=
  match x with Some _ => x | None => y end.

Definition mergeAttrs (rest b : Attrs) : Attrs :=
  mkAttrs (orElse (name b) (name rest))
          (orElse (variadic b) (variadic rest))
          (orElse (embedded b) (embedded rest)).

Fixpoint patchGenerics (m : Rec.t Def) (t : Def) : Outcome Def :=
  match t with
  | Null => Throws
  | Obj sh at_ me =>
      match sh with
      | SSlice i => let* i' := patchGenerics m i in Ret (Obj (SSlice i') at_ me)
      | SArray n i => let* i' := patchGenerics m i in Ret (Obj (SArray n i') at_ me)
      | SChannel i => let* i' := patchGenerics m i in Ret (Obj (SChannel i') at_ me)
      | SMap k v =>
          let* k' := patchGenerics m k in
          let* v' := patchGenerics m v in
          Ret (Obj (SMap k' v') noAttrs None)
      | SPointer p => let* p' := patchGenerics m p in Ret (Obj (SPointer p') at_ me)
      | SOptional i => let* i' := patchGenerics m i in Ret (Obj (SOptional i') at_ me)
      | SFunc _ fargs frets =>
          let* fargs' :=
            (fix each (l : list Def) : Outcome (list Def) :=
               match l with
               | [] => Ret []
               | a :: l' =>
                   let* a' := patchGenerics m a in
                   let* r := each l' in Ret (a' :: r)
               end) fargs in
          let* frets' :=
            (fix each (l : list Def) : Outcome (list Def) :=
               match l with
               | [] => Ret []
               | r :: l' =>
                   let* r' := patchGenerics m r in
                   let* rs := each l' in Ret (r' :: rs)
               end) frets in
          Ret (Obj (SFunc None fargs' frets') at_ me)
      | SGeneric g =>
          match lookup m (genericKey g) with
          | Null => Ret (Obj (SGeneric None) at_ me)
          | Obj SUntyped bat bme =>
              Ret (Obj (SGeneric None) (mergeAttrs at_ bat) (orElse bme me))
          | Obj bsh bat bme => Ret (Obj bsh (mergeAttrs at_ bat) (orElse bme me))
          end
      | _ => Ret t
      end
  end.

(** [a[i]] for a possibly negative index. *)
Definition nthZ (l : list Def) (i : Z) : Def :=
  if (i <? 0)%Z then Null else nth (Z.to_nat i) l Null.

(** [expected.variadic ?? false]; reading the property raises on undefined. *)
Definition isVariadic (expected : Def) : Outcome bool :=
  match expected with
  | Null => Throws
  | Obj _ a _ => Ret (match variadic a with Some b => b | None => false end)
  end.

(** The head of the loop body of [resolveFuncGenerics] at position [argIdx]:
    the declared type the argument is matched against, [None] where the loop
    breaks. *)
Definition expectedAt (fargs : list Def) (name : string) (argIdx : nat)
  : Outcome (option Def) :=
  let defArgIdx : Z :=
    if (argIdx <? length fargs)%nat then Z.of_nat argIdx
    else (Z.of_nat (length fargs) - 1)%Z in
  let expected := nthZ fargs defArgIdx in
  let* stop :=
    (if negb (defArgIdx =? Z.of_nat argIdx)%Z
     then let* v := isVariadic expected in Ret (negb v)
     else Ret false) in
  if (stop : bool) then Ret None
  else if isPredicativeFunc name then
    let* k := type expected in
    if Kind.eqb k Kind.Func && Nat.eqb (length (returns expected)) 1
    then Ret (Some (nth 0 (returns expected) Null))
    else Ret (Some expected)
  else Ret (Some expected).

(** The argument loop of [resolveFuncGenerics]: [rest] are the call-site
    arguments from position [argIdx] on, [generics] the bindings collected
    at the earlier positions. *)
Fixpoint bindGenerics (fargs : list Def) (name : string) (rest : list Def)
                      (argIdx : nat) (generics : Rec.t Def)
  : Outcome (Rec.t Def) :=
  match rest with
  | [] => Ret generics
  | actual :: rest' =>
      let* e := expectedAt fargs name argIdx in
      match e with
      | None => Ret generics
      | Some expected =>
          bindGenerics fargs name rest' (S argIdx)
            (Rec.spread (collectGenerics expected actual) generics)
      end
  end.

(** The body of the [forEach] over the declared generic names. *)
Definition constrainGeneric (fg : Generics) (generics : Rec.t Def) (g : string)
  : Rec.t Def :=
  let generics :=
    if negb (Rec.has generics g)
    then Rec.set generics g (scalar Kind.Any) else generics in
  let allowed := match Rec.get fg g with Some ts => ts | None => [] end in
  let equals :=
    existsb (fun t => isUnknownType t || isEquals (lookup generics g) t) allowed in
  if negb equals then Rec.set generics g (nth 0 allowed Null) else generics.

(** The substitution handed to [patchGenerics]. *)
Definition resolvedGenerics (fg : Generics) (fargs : list Def)
                            (actuals : list Def) (name : string)
  : Outcome (Rec.t Def) :=
  let* generics := bindGenerics fargs name actuals 0 [] in
  Ret (fold_left (constrainGeneric fg) (Rec.keys fg) generics).

Definition resolveFuncGenerics (f : Def) (actuals : list Def) (name : string)
  : Outcome Def :=
  match f with
  | Null => Throws
  | Obj (SFunc (Some fg) fargs _) _ _ =>
      let* generics := resolvedGenerics fg fargs actuals name in
      patchGenerics generics f
  | Obj _ _ _ => Ret f
  end.

(** ** The built-in registry (typing.ts)

    [getPredicateScope] reads the registry only at the names accepted by
    [isPredicativeFunc]; these entries are transcribed, the others are
    reached through the scope the host builds. *)

Module BuiltIn.
Definition any : Def := scalar Kind.Any.
Definition generic (g : string) : Def := plain (SGeneric (Some g)).
Definition arg (n : string) (s : Shape Def) : Def := named n s.
Definition array : Def := arg "array" (SSlice (generic "T")).
Definition pointer : Def := arg "#" (SGeneric (Some "T")).
Definition index : Def := arg "#index" (SScalar Kind.Int).
Definition T_any : Generics := [("T", [any])].
Definition TR_any : Generics := [("T", [any]); ("R", [any])].

(** [(array: []T, predicate: func(#: T) bool)] *)
Definition test (n : string) (ret : Def) : Def :=
  named n (SFunc (Some T_any)
    [array; arg "predicate" (SFunc None [pointer] [scalar Kind.Bool])]
    [ret]).

Definition all := test "all" (scalar Kind.Bool).
Definition any_ := test "any" (scalar Kind.Bool).
Definition one := test "one" (scalar Kind.Bool).
Definition none := test "none" (scalar Kind.Bool).
Definition filter := test "filter" (plain (SSlice (generic "T"))).
Definition find := test "find" (plain (SOptional (generic "T"))).
Definition findIndex := test "findIndex" (plain (SOptional (scalar Kind.Int))).
Definition findLast := test "findLast" (plain (SOptional (generic "T"))).
Definition findLastIndex :=
  test "findLastIndex" (plain (SOptional (scalar Kind.Int))).
Definition count := test "count" (scalar Kind.Int).

Definition map : Def :=
  named "map" (SFunc (Some TR_any)
    [array; arg "predicate" (SFunc None [index; pointer] [generic "R"])]
    [plain (SSlice (generic "R"))]).

Definition groupBy : Def :=
  named "groupBy" (SFunc (Some TR_any)
    [array; arg "predicate" (SFunc None [pointer] [generic "R"])]
    [plain (SMap (generic "R") (plain (SSlice (generic "T"))))]).

Definition reduce : Def :=
  named "reduce" (SFunc (Some [("T", [any]); ("T2", [any]); ("R", [any])])
    [array;
     arg "predicate"
       (SFunc None [index; pointer; arg "#acc" (SGeneric (Some "T2"))]
              [generic "R"]);
     arg "initialValue" (SGeneric (Some "T2"))]
    [generic "R"]).

Definition sum : Def :=
  named "sum" (SFunc (Some [("T", [any]); ("R", [scalar Kind.Number])])
    [array; arg "predicate" (SFunc None [index; pointer] [generic "R"])]
    [scalar Kind.Float]).

Definition sortBy : Def :=
  named "sortBy" (SFunc (Some T_any)
    [array; arg "predicate" (SFunc None [pointer] [any]);
     arg "order" (SScalar Kind.String)]
    [plain (SSlice (generic "T"))]).

Definition variables : Rec.t Def :=
  [("all", all); ("any", any_); ("one", one); ("none", none); ("map", map);
   ("filter", filter); ("find", find); ("findIndex", findIndex);
   ("findLast", findLast); ("findLastIndex", findLastIndex);
   ("groupBy", groupBy); ("count", count); ("reduce", reduce); ("sum", sum);
   ("sortBy", sortBy)].
End BuiltIn.

(** ** Syntax trees (the Lezer tree the parser hands over) *)

Module Nodes.
Definition Expr := "Expr".
Definition DefName := "DefName".
Definition VarName := "VarName".
Definition FieldName := "FieldName".
Definition VarDecl := "VarDecl".
Definition Predicate := "Predicate".
Definition Integer := "Integer".
Definition Float := "Float".
Definition Bool := "Bool".
Definition String := "String".
Definition Nil := "Nil".
Definition SelectorExpr := "SelectorExpr".
Definition OptionalSelectorExpr := "OptionalSelectorExpr".
Definition Pointer := "Pointer".
Definition PointerSelectorExpr := "PointerSelectorExpr".
Definition ParenthesizedExpr := "ParenthesizedExpr".
Definition Array := "Array".
Definition Map := "Map".
Definition Pair := "Pair".
Definition IndexExpr := "IndexExpr".
Definition SliceExpr := "SliceExpr".
Definition RangeExpr := "RangeExpr".
Definition CallExpr := "CallExpr".
Definition PipeExpr := "PipeExpr".
Definition UnaryExpr := "UnaryExpr".
Definition BinaryExpr := "BinaryExpr".
Definition ConditionalExpr := "ConditionalExpr".
Definition ArithmeticOp := "ArithmeticOp".
Definition CompareOp := "CompareOp".
Definition LogicOp := "LogicOp".
Definition Arguments := "Arguments".
Definition Block := "Block".
Definition Comma := ",".
Definition CloseParen := ")".
End Nodes.

Module Groups.
Definition Expr := "Expr".
Definition Op := "Op".
End Groups.

Module Keywords.
Definition Pointer := "#".
Definition Accumulator := "#acc".
End Keywords.

Module Operand.
Definition Equal := "==".
Definition NotEqual := "!=".
End Operand.

Module Syntax.
Record NodeType : Set := mkType {
  name : string;
  groups : list string;
  isError : bool
}.

Inductive Tree : Set :=
| T (type : NodeType) (from to : nat) (children : list Tree).

Definition type (t : Tree) : NodeType := match t with T ty _ _ _ => ty end.
Definition from (t : Tree) : nat := match t with T _ f _ _ => f end.
Definition to (t : Tree) : nat := match t with T _ _ e _ => e end.
Definition children (t : Tree) : list Tree := match t with T _ _ _ c => c end.

(** [type.is(n)]: the name of the type or one of its groups. *)
Definition is_ (ty : NodeType) (n : string) : bool :=
  String.eqb (name ty) n || existsb (String.eqb n) (groups ty).

(** A node is addressed by the child indices leading to it, innermost first;
    the root is the empty path. *)
Definition SyntaxNode := list nat.

Fixpoint descend (t : Tree) (p : list nat) : option Tree :=
  match p with
  | [] => Some t
  | i :: p' =>
      match nth_error (children t) i with
      | Some c => descend c p'
      | None => None
      end
  end.

Definition at_ (root : Tree) (n : SyntaxNode) : option Tree :=
  descend root (rev n).

Definition parent (n : SyntaxNode) : option SyntaxNode :=
  match n with [] => None | _ :: p => Some p end.

Definition prevSibling (n : SyntaxNode) : option SyntaxNode :=
  match n with S i :: p => Some (i :: p) | _ => None end.

(** The positions, in order, of the children whose type is [g]. *)
Fixpoint matching (g : string) (cs : list Tree) (i : nat) : list nat :=
  match cs with
  | [] => []
  | c :: cs' =>
      if is_ (type c) g then i :: matching g cs' (S i) else matching g cs' (S i)
  end.

Definition getChildren (root : Tree) (n : SyntaxNode) (g : string)
  : list SyntaxNode :=
  match at_ root n with
  | Some t => List.map (fun i => i :: n) (matching g (children t) 0)
  | None => []
  end.

Definition getChild (root : Tree) (n : SyntaxNode) (g : string)
  : option SyntaxNode :=
  hd_error (getChildren root n g).

(** The nodes [iterate({enter, to: limit})] enters, in document order: a
    node that starts after [limit] is skipped with everything below it. *)
Fixpoint entered (limit : nat) (t : Tree) (n : SyntaxNode) : list SyntaxNode :=
  match t with
  | T _ f _ cs =>
      if (f <=? limit)%nat then
        n :: (fix each (cs : list Tree) (i : nat) : list SyntaxNode :=
                match cs with
                | [] => []
                | c :: cs' => entered limit c (i :: n) ++ each cs' (S i)
                end) cs 0%nat
      else []
  end.
End Syntax.

Import Syntax(SyntaxNode).

(** The editor state as far as the resolver reads it: the document text, the
    head of the main selection, the syntax tree and the scope that [getScope]
    returns (props.ts attaches one scope to every node type). *)
Record EditorState : Type := mkState {
  doc : string;
  head : nat;
  tree : Syntax.Tree;
  scope : Scope
}.

Definition sliceDoc (st : EditorState) (from to : nat) : string :=
  substring from (to - from) (doc st).

(** ** Local and predicate scopes, expression types (resolver.ts)

    [getDefinition] calls itself on other nodes directly and through
    [getLocalScope], [getPointers] and [getPredicateScope]; these are written
    over the recursive call [rec] and the knot is tied in [getDefinition].
    The per-node memo only stores what [definition] returned for the same
    node of the same snapshot, so a query is modelled from the empty memo. *)

Section Resolver.
Variable rec : option SyntaxNode -> Outcome Def.
Variable st : EditorState.

Let root := tree st.

(** Reading a property of a node handle: raises on null. *)
Definition view (n : option SyntaxNode) : Outcome Syntax.Tree :=
  match n with
  | None => Throws
  | Some p =>
      match Syntax.at_ root p with
      | Some t => Ret t
      | None => Throws
      end
  end.

Definition text (t : Syntax.Tree) : string :=
  sliceDoc st (Syntax.from t) (Syntax.to t).

Definition nameIs (n : SyntaxNode) (nm : string) : bool :=
  match Syntax.at_ root n with
  | Some t => String.eqb (Syntax.name (Syntax.type t)) nm
  | None => false
  end.

(** [while (call && call.name !== nm) call = call.parent] *)
Fixpoint findUp (nm : string) (call : SyntaxNode) : option SyntaxNode :=
  if nameIs call nm then Some call
  else match call with
       | [] => None
       | _ :: p => findUp nm p
       end.

Fixpoint mapM {A B : Type} (f : A -> Outcome B) (l : list A)
  : Outcome (list B) :=
  match l with
  | [] => Ret []
  | a :: l' => let* b := f a in let* bs := mapM f l' in Ret (b :: bs)
  end.

Fixpoint mapiM {A B : Type} (f : nat -> A -> Outcome B) (idx : nat)
               (l : list A) : Outcome (list B) :=
  match l with
  | [] => Ret []
  | a :: l' =>
      let* b := f idx a in let* bs := mapiM f (S idx) l' in Ret (b :: bs)
  end.

(** [call.parent?.name === Nodes.PipeExpr && call.prevSibling] *)
Definition pipeFed (call : SyntaxNode) : bool :=
  match Syntax.parent call, Syntax.prevSibling call with
  | Some p, Some _ => nameIs p Nodes.PipeExpr
  | _, _ => false
  end.

(** [[arg.name]: arg] *)
Definition nameKey (a : Def) : Outcome string :=
  match a with
  | Null => Throws
  | Obj _ at_ _ => Ret (genericKey (name at_))
  end.

Fixpoint byName (l : list Def) (acc : Rec.t Def) : Outcome (Rec.t Def) :=
  match l with
  | [] => Ret acc
  | a :: l' => let* k := nameKey a in byName l' (Rec.spread acc [(k, a)])
  end.

Definition getPredicateScope (node : SyntaxNode) : Outcome (Rec.t Def) :=
  match Syntax.parent node with
  | None => Ret []
  | Some _ =>
    let* t := view (Some node) in
    if Syntax.is_ (Syntax.type t) Nodes.CloseParen then Ret [] else
    match findUp Nodes.Arguments node with
    | None => Ret []
    | Some a =>
    match findUp Nodes.CallExpr a with
    | None => Ret []
    | Some call =>
    match Syntax.getChild root call Nodes.Expr with
    | None => Ret []
    | Some varName =>
      let* vt := view (Some varName) in
      let name := text vt in
      if negb (isPredicativeFunc name) then Ret [] else
      let def := lookup BuiltIn.variables name in
      match def with
      | Obj (SFunc _ dargs _) _ _ =>
          let piped := pipeFed call in
          let fed :=
            if piped then
              match Syntax.parent call with
              | Some p => [Syntax.getChild root p Groups.Expr]
              | None => []
              end
            else [] in
          match Syntax.getChild root call Nodes.Arguments with
          | None => Ret []
          | Some argsNode =>
              let argNodes :=
                fed ++ List.map Some (Syntax.getChildren root argsNode Groups.Expr) in
              let cursor :=
                if Syntax.is_ (Syntax.type t) Nodes.Arguments
                   || Syntax.is_ (Syntax.type t) Nodes.Comma
                then head st else Syntax.from t in
              let* commas := mapM (fun c => view (Some c))
                               (Syntax.getChildren root argsNode Nodes.Comma) in
              let pos :=
                ((if piped then 1 else 0)
                 + length (filter (fun c => Syntax.to c <=? cursor) commas))%nat in
              if (length dargs <=? pos)%nat then Ret [] else
              let* k := type (nth pos dargs Null) in
              if negb (Kind.eqb k Kind.Func) then Ret [] else
              let* definitions :=
                mapiM (fun idx a =>
                         if Nat.eqb idx pos then Ret (scalar Kind.Any) else rec a)
                      0 argNodes in
              let* func := resolveFuncGenerics def definitions name in
              let* _ := type func in
              let predicate := nth pos (args func) Null in
              let* _ := type predicate in
              let* scope := byName (args predicate) [] in
              if Rec.has scope Keywords.Accumulator then
                let* k := type (lookup scope Keywords.Accumulator) in
                if Kind.eqb k (Kind.Scalar Kind.Any) then
                  Ret (Rec.spread scope
                         [(Keywords.Accumulator, lookup scope Keywords.Pointer)])
                else Ret scope
              else Ret scope
          end
      | _ => Ret []
      end
    end end end
  end.

(** The ancestor walk of [getPointers]: [cur] is the node looked at,
    [prev] the one it was reached from. *)
Fixpoint getPointersFrom (cur prev : SyntaxNode) : Outcome (Rec.t Def) :=
  let* found :=
    (if nameIs cur Nodes.Arguments then
       let* scope := getPredicateScope prev in
       if Rec.has scope Keywords.Pointer then Ret (Some scope) else Ret None
     else Ret None) in
  match found with
  | Some scope => Ret scope
  | None =>
      match cur with
      | [] => Ret []
      | _ :: p => getPointersFrom p cur
      end
  end.

Definition getPointers (node : SyntaxNode) : Outcome (Rec.t Def) :=
  getPointersFrom node node.

(** The declared variable, [None] for the null result.  The description
    assembled from the preceding comments is not represented; reaching for
    the comments still dereferences the parent of a first child. *)
Definition toVarDeclaration (varDecl : SyntaxNode) : Outcome (option Def) :=
  let* t := view (Some varDecl) in
  if Syntax.isError (Syntax.type t) then Ret None else
  match Syntax.getChild root varDecl Nodes.DefName with
  | None => Ret None
  | Some nameNode =>
      let* def := rec (Syntax.getChild root varDecl Groups.Expr) in
      let* _ :=
        (match Syntax.prevSibling varDecl, Syntax.parent varDecl with
         | None, None => Throws
         | _, _ => Ret tt
         end) in
      let* nt := view (Some nameNode) in
      Ret (Some (withName def (text nt)))
  end.

(** The [enter] callback at one node: the declaration it adds to the scope,
    if any. *)
Definition declaredAt (limit : nat) (n : SyntaxNode) : Outcome (option Def) :=
  let* t := view (Some n) in
  if String.eqb (Syntax.name (Syntax.type t)) Nodes.VarDecl
     && (Syntax.to t <? limit)%nat
  then toVarDeclaration n
  else Ret None.

(** The callback run over the entered nodes. *)
Fixpoint declare (limit : nat) (nodes : list SyntaxNode) (scope : Rec.t Def)
  : Outcome (Rec.t Def) :=
  match nodes with
  | [] => Ret scope
  | n :: nodes' =>
      let* d := declaredAt limit n in
      match d with
      | Some def =>
          let* k := nameKey def in
          declare limit nodes' (Rec.spread [(k, def)] scope)
      | None => declare limit nodes' scope
      end
  end.

(** [pos ?? target.from] *)
Definition scanLimit (target : SyntaxNode) (pos : option nat) : Outcome nat :=
  match pos with
  | Some p => Ret p
  | None => let* t := view (Some target) in Ret (Syntax.from t)
  end.

Definition getLocalScope (target : SyntaxNode) (pos : option nat)
  : Outcome (Rec.t Def) :=
  let* scope := getPointers target in
  let* limit := scanLimit target pos in
  declare limit (Syntax.entered limit root []) scope.
End Resolver.

Section Expressions.
Variable fuel : nat.
Variable rec : option SyntaxNode -> Outcome Def.
Variable st : EditorState.

Let root := tree st.
Let any : Def := scalar Kind.Any.

(** [children[idx]] for [idx >= 1] against [children[0]]. *)
Definition homogeneous (children : list Def) : bool :=
  match children with
  | [] => true
  | first :: others => forallb (isEquals first) others
  end.

Definition memberOf (node : SyntaxNode) (source : Def) : Outcome Def :=
  match Syntax.getChild root node Nodes.FieldName with
  | Some field =>
      let* ft := view st (Some field) in
      getMember fuel (scope st) source (text st ft)
  | None => Ret any
  end.

Definition conditional (node : SyntaxNode) : Outcome Def :=
  let cs := Syntax.getChildren root node Groups.Expr in
  let condition := nth_error cs 0 in
  let truth := nth_error cs 1 in
  let falsehood := nth_error cs 2 in
  let* t := rec truth in
  let* f := rec falsehood in
  if isEquals t f then Ret t else
  let* tk := type t in
  if negb (Kind.eqb tk Kind.Optional) then Ret any else
  let* ct := view st condition in
  if negb (Syntax.is_ (Syntax.type ct) Nodes.BinaryExpr) then Ret any else
  let* ot := view st (match condition with
                      | Some c => Syntax.getChild root c Groups.Op
                      | None => None
                      end) in
  if negb (String.eqb (Syntax.name (Syntax.type ot)) Nodes.CompareOp)
  then Ret any else
  let operand := text st ot in
  if negb (String.eqb operand Operand.Equal)
     && negb (String.eqb operand Operand.NotEqual) then Ret any else
  let sides := match condition with
               | Some c => Syntax.getChildren root c Groups.Expr
               | None => []
               end in
  let right := nth_error sides 0 in
  let left := nth_error sides 1 in
  let* rt := view st right in
  let rightNil := Syntax.is_ (Syntax.type rt) Nodes.Nil in
  let* leftNil :=
    (if rightNil then Ret true
     else let* lt := view st left in
          Ret (Syntax.is_ (Syntax.type lt) Nodes.Nil)) in
  if negb rightNil && negb leftNil then Ret any else
  let src := if rightNil then left else right in
  let r := if String.eqb operand Operand.NotEqual then truth else falsehood in
  let* srct := view st src in
  let* rtxt := view st r in
  if String.eqb (text st srct) (text st rtxt) && isEquals (item t) f
  then Ret (item t) else Ret any.

(** [node.parent && node.parent.type.is(Nodes.PipeExpr) && node.prevSibling] *)
Definition pipeFedCall (node : SyntaxNode) : bool :=
  match Syntax.parent node, Syntax.prevSibling node with
  | Some p, Some _ =>
      match Syntax.at_ root p with
      | Some pt => Syntax.is_ (Syntax.type pt) Nodes.PipeExpr
      | None => false
      end
  | _, _ => false
  end.

Definition call (node : SyntaxNode) : Outcome Def :=
  let callable := Syntax.getChild root node Groups.Expr in
  let* source := rec callable in
  let* sk := type source in
  if negb (Kind.eqb sk Kind.Func) then Ret any else
  let* _ := view st (Syntax.getChild root node Nodes.Arguments) in
  let own :=
    match Syntax.getChild root node Nodes.Arguments with
    | Some a => List.map Some (Syntax.getChildren root a Groups.Expr)
    | None => []
    end in
  let argNodes :=
    if pipeFedCall node then
      match Syntax.parent node with
      | Some p => Syntax.getChild root p Groups.Expr :: own
      | None => own
      end
    else own in
  let* argsDef := mapM rec argNodes in
  let* ct := view st callable in
  let* t := resolveFuncGenerics source argsDef (text st ct) in
  let* _ := type t in
  match returns t with
  | first :: _ => Ret first
  | [] => Ret any
  end.

Definition binary (node : SyntaxNode) : Outcome Def :=
  let* ot := view st (Syntax.getChild root node Groups.Op) in
  let op := Syntax.name (Syntax.type ot) in
  if String.eqb op Nodes.CompareOp || String.eqb op Nodes.LogicOp
  then Ret (scalar Kind.Bool) else
  let cs := Syntax.getChildren root node Groups.Expr in
  let* r := rec (nth_error cs 0) in
  let* l := rec (nth_error cs 1) in
  let* rn := isNumber r in
  let* both := (if rn then isNumber l else Ret false) in
  if both then Ret (scalar Kind.Float)
  else if isEquals r l then Ret r
  else Ret any.

Definition definition (node : SyntaxNode) : Outcome Def :=
  match Syntax.at_ root node with
  | None => Ret any
  | Some t =>
    let nm := Syntax.name (Syntax.type t) in
    let case := String.eqb nm in
    if String.eqb nm "" then Ret any
    else if case Nodes.Integer then Ret (scalar Kind.Int)
    else if case Nodes.Float then Ret (scalar Kind.Float)
    else if case Nodes.String then Ret (scalar Kind.String)
    else if case Nodes.Bool then Ret (scalar Kind.Bool)
    else if case Nodes.Nil then Ret (scalar Kind.Nil)
    else if case Nodes.RangeExpr then Ret (plain (SSlice (scalar Kind.Int)))
    else if case Nodes.VarName then
      let name := text st t in
      if Rec.has (variables (scope st)) name
      then Ret (withName (lookup (variables (scope st)) name) name)
      else
        let* locals := getLocalScope rec st node None in
        if Rec.has locals name then Ret (withName (lookup locals name) name)
        else Ret any
    else if case Nodes.SelectorExpr || case Nodes.OptionalSelectorExpr then
      let* source := rec (Syntax.getChild root node Groups.Expr) in
      memberOf node source
    else if case Nodes.PointerSelectorExpr then
      let* pointers := getPointers rec st node in
      if negb (Rec.has pointers Keywords.Pointer) then Ret any
      else memberOf node (lookup pointers Keywords.Pointer)
    else if case Nodes.Pointer then
      let name := text st t in
      let* pointers := getPointers rec st node in
      if Rec.has pointers name then Ret (lookup pointers name) else Ret any
    else if case Nodes.ParenthesizedExpr || case Nodes.UnaryExpr
            || case Nodes.Block || case Nodes.Predicate || case Nodes.PipeExpr then
      rec (last (List.map Some (Syntax.getChildren root node Groups.Expr)) None)
    else if case Nodes.Array then
      let* children :=
        mapM rec (List.map Some (Syntax.getChildren root node Groups.Expr)) in
      match children with
      | [] => Ret (plain (SSlice any))
      | first :: _ =>
          if homogeneous children then Ret (plain (SSlice first))
          else Ret (plain (SSlice any))
      end
    else if case Nodes.Map then
      let* values :=
        mapM (fun n => rec (nth_error (Syntax.getChildren root n Groups.Expr) 1))
             (Syntax.getChildren root node Nodes.Pair) in
      match values with
      | [] => Ret (plain (SMap (scalar Kind.String) any))
      | first :: _ =>
          if homogeneous values then Ret (plain (SMap (scalar Kind.String) first))
          else Ret (plain (SMap (scalar Kind.String) any))
      end
    else if case Nodes.IndexExpr then
      let* source := rec (Syntax.getChild root node Groups.Expr) in
      let* k := type source in
      if Kind.eqb k Kind.Array || Kind.eqb k Kind.Slice then Ret (item source)
      else if Kind.eqb k Kind.Map then Ret (value source)
      else Ret any
    else if case Nodes.SliceExpr then
      let* source := rec (Syntax.getChild root node Groups.Expr) in
      let* k := type source in
      if Kind.eqb k Kind.Array || Kind.eqb k Kind.Slice
      then Ret (plain (SSlice (item source)))
      else Ret any
    else if case Nodes.CallExpr then call node
    else if case Nodes.BinaryExpr then binary node
    else if case Nodes.ConditionalExpr then conditional node
    else Ret any
  end.
End Expressions.

Fixpoint getDefinition (fuel : nat) (st : EditorState) (node : option SyntaxNode)
  : Outcome Def :=
  match fuel with
  | O => OutOfFuel
  | S fuel' =>
      match node with
      | None => Ret (scalar Kind.Any)
      | Some n => definition fuel' (getDefinition fuel' st) st n
      end
  end.

(** ** Statements of the properties: auxiliary notions *)

(** The bindings the argument loop collects while it processes position [i]:
    empty when the loop has stopped (or raised) before it gets there. *)
Definition loopReaches (fargs : list Def) (name : string) (i : nat) : bool :=
  forallb (fun h => match expectedAt fargs name h with
                    | Ret (Some _) => true
                    | _ => false
                    end) (seq 0 i).

Definition producedAt (fargs : list Def) (name : string) (actuals : list Def)
                      (i : nat) : Rec.t Def :=
  match nth_error actuals i, expectedAt fargs name i with
  | Some a, Ret (Some e) =>
      if loopReaches fargs name i then collectGenerics e a else []
  | _, _ => []
  end.

(** The constraint check of the [forEach] leaves the binding [v] of [g] alone. *)
Definition accepted (fg : Generics) (g : string) (v : Def) : bool :=
  match Rec.get fg g with
  | Some allowed => existsb (fun t => isUnknownType t || isEquals v t) allowed
  | None => true
  end.

(** Named-type references that can be followed to the end: every defined
    name met on the way is registered, every struct field is an object, and
    the chain of references is finite. *)
Definition embeddedRef (field : Def) : bool :=
  match field with
  | Obj (SDefined _) a _ => truthy (embedded a)
  | _ => false
  end.

Inductive Resolvable (s : Scope) : Def -> Prop :=
| res_defined n a m d :
    Rec.get (types s) n = Some d ->
    Resolvable s d ->
    Resolvable s (Obj (SDefined n) a m)
| res_struct fields a m :
    (forall f field, Rec.get fields f = Some field -> field <> Null) ->
    (forall f field, Rec.get fields f = Some field ->
                     embeddedRef field = true -> Resolvable s field) ->
    Resolvable s (Obj (SStruct fields) a m)
| res_other sh a m :
    kindOfShape sh <> Kind.Struct ->
    kindOfShape sh <> Kind.Defined ->
    Resolvable s (Obj sh a m).

(** The three functions return on [d] with [fuel] steps, and with every
    number of steps from [bound] on. *)
Definition ReturnsAt (s : Scope) (d : Def) (fuel : nat) : Prop :=
  (exists r, getBaseType fuel s d = Ret r)
  /\ (forall name, exists r, getMember fuel s d name = Ret r)
  /\ (exists ms, getMembers fuel s d = Ret ms).

Definition ReturnsFrom (s : Scope) (d : Def) (bound : nat) : Prop :=
  forall fuel, bound <= fuel -> ReturnsAt s d fuel.

(** The binding of [k] found at the first position, from [i] on, whose
    bindings mention [k]. *)
Fixpoint firstBinding (fargs : list Def) (name : string) (rest : list Def)
                      (i : nat) (k : string) : option Def :=
  match rest with
  | [] => None
  | a :: rest' =>
      match expectedAt fargs name i with
      | Ret (Some e) =>
          match Rec.get (collectGenerics e a) k with
          | Some v => Some v
          | None => firstBinding fargs name rest' (S i) k
          end
      | _ => None
      end
  end.

(** A comparison such as [# > 2]: a binary expression whose operator is a
    comparison operator. *)
Definition isComparison (st : EditorState) (q : SyntaxNode) : Prop :=
  nameIs st q Nodes.BinaryExpr = true
  /\ exists o, Syntax.getChild (tree st) q Groups.Op = Some o
               /\ nameIs st o Nodes.CompareOp = true.

(** A call [filter(...)] of the built-in, with the expressions [own] between
    its parentheses. *)
Definition isFilterCall (st : EditorState) (c : SyntaxNode)
                        (own : list SyntaxNode) : Prop :=
  nameIs st c Nodes.CallExpr = true
  /\ (exists f ft,
        Syntax.getChild (tree st) c Groups.Expr = Some f
        /\ Syntax.at_ (tree st) f = Some ft
        /\ Syntax.name (Syntax.type ft) = Nodes.VarName
        /\ text st ft = "filter")
  /\ (exists a, Syntax.getChild (tree st) c Nodes.Arguments = Some a
                /\ Syntax.getChildren (tree st) a Groups.Expr = own)
  /\ Rec.get (variables (scope st)) "filter" = Some BuiltIn.filter.

(** The argument nodes a call is resolved against. *)
Definition effectiveArgs (st : EditorState) (c : SyntaxNode)
                         (own : list SyntaxNode) : list (option SyntaxNode) :=
  if pipeFedCall st c then
    match Syntax.parent c with
    | Some p => Syntax.getChild (tree st) p Groups.Expr :: List.map Some own
    | None => List.map Some own
    end
  else List.map Some own.

(** ** The scope the host builds (props.ts) *)

(** [buildScope]: the entries of the host scope are spread over the
    built-in ones; [builtIn] is the registry of typing.ts. *)
Definition buildScope (builtIn : Scope) (scope : option Scope) : Scope :=
  mkScope
    (Rec.spread (Rec.spread [] (variables builtIn))
                (match scope with Some s => variables s | None => [] end))
    (Rec.spread (Rec.spread [] (types builtIn))
                (match scope with Some s => types s | None => [] end)).

(** ** Lint rules (linter.ts) *)

(** A diagnostic as far as it is data: the closure [renderMessage] that
    builds the DOM node of the same text is not represented. *)
Record Diagnostic : Set := mkDiagnostic {
  d_from : nat;
  d_to : nat;
  severity : string;
  markClass : option string;
  message : string
}.




(** The text of a [type] property inside a message: the value of the enum
    (typing.ts), [undefined] for an object without the property. *)
Definition kindName (k : Kind.t) : string :=
  match k with
  | Kind.Scalar Kind.Int8 => "int8" | Kind.Scalar Kind.Uint8 => "uint8"
  | Kind.Scalar Kind.Int16 => "int16" | Kind.Scalar Kind.Uint16 => "uint16"
  | Kind.Scalar Kind.Int32 => "int32" | Kind.Scalar Kind.Uint32 => "uint32"
  | Kind.Scalar Kind.Int64 => "int64" | Kind.Scalar Kind.Uint64 => "uint64"
  | Kind.Scalar Kind.Int => "int" | Kind.Scalar Kind.Uint => "uint"
  | Kind.Scalar Kind.Uintptr => "uintptr"
  | Kind.Scalar Kind.Float32 => "float32" | Kind.Scalar Kind.Float64 => "float64"
  | Kind.Scalar Kind.Complex64 => "complex64"
  | Kind.Scalar Kind.Complex128 => "complex128"
  | Kind.Scalar Kind.Bool => "bool" | Kind.Scalar Kind.String => "string"
  | Kind.Scalar Kind.Byte => "byte" | Kind.Scalar Kind.Rune => "rune"
  | Kind.Scalar Kind.Interface => "interface" | Kind.Scalar Kind.Error => "error"
  | Kind.Scalar Kind.Any => "any" | Kind.Scalar Kind.Nil => "nil"
  | Kind.Scalar Kind.Number => "number" | Kind.Scalar Kind.Float => "float"
  | Kind.Array => "array" | Kind.Slice => "slice" | Kind.Map => "map"
  | Kind.Func => "func" | Kind.Struct => "struct" | Kind.Pointer => "pointer"
  | Kind.Channel => "chan" | Kind.Generic => "generic"
  | Kind.Defined => "defined" | Kind.Optional => "optional"
  | Kind.Undefined => "undefined"
  end.



Definition noInvalidIndex (fuel : nat) (st : EditorState) (node : SyntaxNode)
  : Outcome (list Diagnostic) :=
  match Syntax.getChildren (tree st) node Groups.Expr with
  | source :: index :: _ =>
      let* src := getDefinition fuel st (Some source) in
      let* idx := getDefinition fuel st (Some index) in
      if isUnknownType src then Ret [] else
      let* sk := type src in
      if negb (Kind.eqb sk Kind.Array) && negb (Kind.eqb sk Kind.Slice)
         && negb (Kind.eqb sk Kind.Map) then
        let* t := view st (Some node) in
        Ret [mkDiagnostic (Syntax.from t) (Syntax.to t) "error" None
               ("Type '" ++ kindName sk ++ "' does not support indexing")]
      else if isUnknownType idx then Ret [] else
      let* ik := type idx in
      if (Kind.eqb sk Kind.Array || Kind.eqb sk Kind.Slice)
         && negb (Kind.eqb ik (Kind.Scalar Kind.Int)) then
        let* it := view st (Some index) in
        let* t := view st (Some node) in
        Ret [mkDiagnostic (Syntax.from t) (Syntax.to t) "error" None
               ("Invalid array index '" ++ text st it
                ++ "' (the value must be representable by 'int' type)")]
      else if Kind.eqb sk Kind.Map
              && negb (Kind.eqb ik (Kind.Scalar Kind.String)) then
        let* it := view st (Some index) in
        let* t := view st (Some node) in
        Ret [mkDiagnostic (Syntax.from t) (Syntax.to t) "error" None
               ("'" ++ text st it ++ "' (type " ++ kindName ik
                ++ ") cannot be represented by the type string")]
      else Ret []
  | _ =>
      let* t := view st (Some node) in
      Ret [mkDiagnostic (Syntax.from t) (Syntax.to t) "error" None
             "Invalid index expression"]
  end.

(** ** Further notions used in the statements *)

(** No component that [patchGenerics] walks into is null: the items of
    slices, arrays, channels and optionals, the keys and values of maps, the
    targets of pointers, the parameters and returns of functions. *)
Fixpoint noNull (t : Def) : bool :=
  match t with
  | Null => false
  | Obj sh _ _ =>
      match sh with
      | SSlice i | SArray _ i | SChannel i | SOptional i | SPointer i => noNull i
      | SMap k v => noNull k && noNull v
      | SFunc _ fargs frets => forallb noNull fargs && forallb noNull frets
      | _ => true
      end
  end.

(** A generic placeholder occurs where [collectGenerics] looks for one. *)
Fixpoint mentionsGeneric (t : Def) : bool :=
  match t with
  | Null => false
  | Obj sh _ _ =>
      match sh with
      | SGeneric _ => true
      | SSlice i | SArray _ i | SChannel i | SPointer i => mentionsGeneric i
      | SMap k v => mentionsGeneric k || mentionsGeneric v
      | SFunc _ fargs frets =>
          existsb mentionsGeneric fargs || existsb mentionsGeneric frets
      | _ => false
      end
  end.

(** [f.generics] *)
Definition genericsOf (f : Def) : option Generics :=
  match f with Obj (SFunc g _ _) _ _ => g | _ => None end.

(** No component that [isEquals] compares is null: the item of a channel,
    the key and value of a map, the target of a pointer, the parameters and
    returns of a function. *)
Fixpoint comparedNonNull (t : Def) : bool :=
  match t with
  | Null => false
  | Obj sh _ _ =>
      match sh with
      | SChannel i | SPointer i => comparedNonNull i
      | SMap k v => comparedNonNull k && comparedNonNull v
      | SFunc _ fargs frets =>
          forallb comparedNonNull fargs && forallb comparedNonNull frets
      | _ => true
      end
  end.





(** [node] stands in the argument list of the call [call] of [fname], which
    is not fed by a pipe and has the two arguments [a0] and [a1]; exactly
    one comma of the list ends at or before the start of [node], so that
    [node] is at the second argument. *)
Definition predicateSite (st : EditorState) (node call : SyntaxNode)
                         (fname : string) (a0 a1 : SyntaxNode) : Prop :=
  (exists p, Syntax.parent node = Some p)
  /\ (exists inner argsNode callee ct t commas,
        findUp st Nodes.Arguments node = Some inner
        /\ findUp st Nodes.CallExpr inner = Some call
        /\ Syntax.getChild (tree st) call Nodes.Expr = Some callee
        /\ Syntax.at_ (tree st) callee = Some ct
        /\ text st ct = fname
        /\ pipeFed st call = false
        /\ Syntax.getChild (tree st) call Nodes.Arguments = Some argsNode
        /\ Syntax.getChildren (tree st) argsNode Groups.Expr = [a0; a1]
        /\ Syntax.at_ (tree st) node = Some t
        /\ Syntax.is_ (Syntax.type t) Nodes.CloseParen = false
        /\ Syntax.is_ (Syntax.type t) Nodes.Arguments = false
        /\ Syntax.is_ (Syntax.type t) Nodes.Comma = false
        /\ mapM (fun c => view st (Some c))
                (Syntax.getChildren (tree st) argsNode Nodes.Comma) = Ret commas
        /\ length (filter (fun c => (Syntax.to c <=? Syntax.from t)%nat) commas)
           = 1%nat).

(** What [getPredicateScope] makes of the resolved signature [func] when the
    predicate is its parameter [pos]. *)
Definition scopeOfPredicate (func : Def) (pos : nat) : Outcome (Rec.t Def) :=
  let* _ := type func in
  let predicate := nth pos (args func) Null in
  let* _ := type predicate in
  let* scope := byName (args predicate) [] in
  if Rec.has scope Keywords.Accumulator then
    let* k := type (lookup scope Keywords.Accumulator) in
    if Kind.eqb k (Kind.Scalar Kind.Any) then
      Ret (Rec.spread scope
             [(Keywords.Accumulator, lookup scope Keywords.Pointer)])
    else Ret scope
  else Ret scope.

(** The definition has a [type] property. *)
Definition typed (t : Def) : bool :=
  match t with
  | Null | Obj SUntyped _ _ => false
  | Obj _ _ _ => true
  end.

(** The case analysis over the names of [isPredicativeFunc]. *)
Ltac predicative_cases H :=
  unfold isPredicativeFunc in H; cbn [existsb] in H;
  repeat match type of H with
         | (String.eqb ?x ?s || _) = true =>
             let E := fresh "E" in
             destruct (String.eqb x s) eqn:E;
             [ apply String.eqb_eq in E; subst x
             | cbn [orb] in H ]
         end;
  try discriminate H.

(** ** Sample programs and environments *)

Module Sample.
Definition expr (n : string) := Syntax.mkType n [Groups.Expr] false.
Definition op (n : string) := Syntax.mkType n [Groups.Op] false.
Definition token (n : string) := Syntax.mkType n [] false.
Definition top := token "Expr".

Definition int : Def := scalar Kind.Int.
Definition uint : Def := scalar Kind.Uint.
Definition bool : Def := scalar Kind.Bool.
Definition str : Def := scalar Kind.String.
Definition nil : Def := scalar Kind.Nil.
Definition float : Def := scalar Kind.Float.
Definition sliceInt : Def := plain (SSlice int).
Definition optionalInt : Def := plain (SOptional int).
Definition pointerInt : Def := plain (SPointer int).

(** [x == nil ? 0 : x] with [x : optional<int>] *)
Definition coalesceTree : Syntax.Tree :=
  Syntax.T top 0 16
    [Syntax.T (expr Nodes.ConditionalExpr) 0 16
       [Syntax.T (expr Nodes.BinaryExpr) 0 8
          [Syntax.T (expr Nodes.VarName) 0 1 [];
           Syntax.T (op Nodes.CompareOp) 2 4 [];
           Syntax.T (expr Nodes.Nil) 5 8 []];
        Syntax.T (expr Nodes.Integer) 11 12 [];
        Syntax.T (expr Nodes.VarName) 15 16 []]].

Definition optionalScope : Scope := mkScope [("x", optionalInt)] [].

Definition coalesce : EditorState :=
  mkState "x == nil ? 0 : x" 0 coalesceTree optionalScope.

(** [x != nil ? x : 0] with [x : optional<int>] *)
Definition guardTree : Syntax.Tree :=
  Syntax.T top 0 16
    [Syntax.T (expr Nodes.ConditionalExpr) 0 16
       [Syntax.T (expr Nodes.BinaryExpr) 0 8
          [Syntax.T (expr Nodes.VarName) 0 1 [];
           Syntax.T (op Nodes.CompareOp) 2 4 [];
           Syntax.T (expr Nodes.Nil) 5 8 []];
        Syntax.T (expr Nodes.VarName) 11 12 [];
        Syntax.T (expr Nodes.Integer) 15 16 []]].

Definition guard : EditorState :=
  mkState "x != nil ? x : 0" 0 guardTree optionalScope.

(** [x.b] and [x.b.c] with [x : struct { a int }] *)
Definition recordScope : Scope :=
  mkScope [("x", plain (SStruct [("a", named "a" (SScalar Kind.Int))]))] [].

Definition selectorTree : Syntax.Tree :=
  Syntax.T top 0 3
    [Syntax.T (expr Nodes.SelectorExpr) 0 3
       [Syntax.T (expr Nodes.VarName) 0 1 [];
        Syntax.T (token ".") 1 2 [];
        Syntax.T (token Nodes.FieldName) 2 3 []]].

Definition selector : EditorState := mkState "x.b" 0 selectorTree recordScope.

Definition chainTree : Syntax.Tree :=
  Syntax.T top 0 5
    [Syntax.T (expr Nodes.SelectorExpr) 0 5
       [Syntax.T (expr Nodes.SelectorExpr) 0 3
          [Syntax.T (expr Nodes.VarName) 0 1 [];
           Syntax.T (token ".") 1 2 [];
           Syntax.T (token Nodes.FieldName) 2 3 []];
        Syntax.T (token ".") 3 4 [];
        Syntax.T (token Nodes.FieldName) 4 5 []]].

Definition chain : EditorState := mkState "x.b.c" 0 chainTree recordScope.

(** A generic function without parameters, [func<T>() T]. *)
Definition thunk : Def :=
  named "make" (SFunc (Some [("T", [scalar Kind.Any])]) []
                      [plain (SGeneric (Some "T"))]).

(** [func<T: string>(a T, b T) T] called with [(int, bool)]. *)
Definition pair : Def :=
  named "pair" (SFunc (Some [("T", [str])])
                      [named "a" (SGeneric (Some "T"));
                       named "b" (SGeneric (Some "T"))]
                      [plain (SGeneric (Some "T"))]).

(** [struct A { B; X string }] embedding [struct B { X int }]. *)
Definition structB : Def :=
  Obj (SStruct [("X", named "X" (SScalar Kind.Int))])
      (mkAttrs (Some "B") None None) None.

Definition structA : Def :=
  plain (SStruct
           [("B", Obj (SDefined "B") (mkAttrs (Some "B") None (Some true)) None);
            ("X", named "X" (SScalar Kind.String))]).

Definition embedding : Scope := mkScope [] [("B", structB)].

(** A registry in which the name [A] stands for itself, and one in which
    [A] and [B] stand for each other. *)
Definition selfRef : Scope := mkScope [] [("A", named "A" (SDefined "A"))].

Definition mutualRef : Scope :=
  mkScope [] [("A", named "A" (SDefined "B")); ("B", named "B" (SDefined "A"))].

(** [struct Node { Node }]: a struct that embeds its own named type. *)
Definition node : Def :=
  named "Node"
    (SStruct [("Node", Obj (SDefined "Node")
                           (mkAttrs (Some "Node") None (Some true)) None)]).

Definition selfEmbedding : Scope := mkScope [] [("Node", node)].

(** [let x = 1; let x = "a"; x] *)
Definition shadowTree : Syntax.Tree :=
  Syntax.T top 0 25
    [Syntax.T (token Nodes.VarDecl) 0 10
       [Syntax.T (token Nodes.DefName) 4 5 [];
        Syntax.T (token "=") 6 7 [];
        Syntax.T (expr Nodes.Integer) 8 9 [];
        Syntax.T (token ";") 9 10 []];
     Syntax.T (token Nodes.VarDecl) 11 23
       [Syntax.T (token Nodes.DefName) 15 16 [];
        Syntax.T (token "=") 17 18 [];
        Syntax.T (expr Nodes.String) 19 22 [];
        Syntax.T (token ";") 22 23 []];
     Syntax.T (expr Nodes.VarName) 24 25 []].

Definition shadow : EditorState :=
  mkState "let x = 1; let x = 'a'; x" 0 shadowTree (mkScope [] []).

(** [a + b] with [a, b : uint] *)
Definition sumTree : Syntax.Tree :=
  Syntax.T top 0 5
    [Syntax.T (expr Nodes.BinaryExpr) 0 5
       [Syntax.T (expr Nodes.VarName) 0 1 [];
        Syntax.T (op Nodes.ArithmeticOp) 2 3 [];
        Syntax.T (expr Nodes.VarName) 4 5 []]].

Definition unsignedSum : EditorState :=
  mkState "a + b" 0 sumTree (mkScope [("a", uint); ("b", uint)] []).

(** [arr | filter(# > 2)] and [filter(arr, # > 2)] with [arr : slice<int>] *)
Definition arrScope : Scope :=
  mkScope (("arr", sliceInt) :: BuiltIn.variables) [].

Definition pipedTree : Syntax.Tree :=
  Syntax.T top 0 19
    [Syntax.T (expr Nodes.PipeExpr) 0 19
       [Syntax.T (expr Nodes.VarName) 0 3 [];
        Syntax.T (expr Nodes.CallExpr) 6 19
          [Syntax.T (expr Nodes.VarName) 6 12 [];
           Syntax.T (token Nodes.Arguments) 12 19
             [Syntax.T (token "(") 12 13 [];
              Syntax.T (expr Nodes.BinaryExpr) 13 18
                [Syntax.T (expr Nodes.Pointer) 13 14 [];
                 Syntax.T (op Nodes.CompareOp) 15 16 [];
                 Syntax.T (expr Nodes.Integer) 17 18 []];
              Syntax.T (token Nodes.CloseParen) 18 19 []]]]].

Definition piped : EditorState :=
  mkState "arr | filter(# > 2)" 0 pipedTree arrScope.

Definition directTree : Syntax.Tree :=
  Syntax.T top 0 18
    [Syntax.T (expr Nodes.CallExpr) 0 18
       [Syntax.T (expr Nodes.VarName) 0 6 [];
        Syntax.T (token Nodes.Arguments) 6 18
          [Syntax.T (token "(") 6 7 [];
           Syntax.T (expr Nodes.VarName) 7 10 [];
           Syntax.T (token Nodes.Comma) 10 11 [];
           Syntax.T (expr Nodes.BinaryExpr) 12 17
             [Syntax.T (expr Nodes.Pointer) 12 13 [];
              Syntax.T (op Nodes.CompareOp) 14 15 [];
              Syntax.T (expr Nodes.Integer) 16 17 []];
           Syntax.T (token Nodes.CloseParen) 17 18 []]]].

Definition direct : EditorState :=
  mkState "filter(arr, # > 2)" 0 directTree arrScope.
End Sample.

(** ** Further sample programs and environments *)

Module Fixture.
(** [struct W { B }] over the registry of [Sample.embedding]: the field [X]
    of [B] is reachable through the embedding only. *)
Definition wrapper : Def :=
  plain (SStruct
           [("B", Obj (SDefined "B") (mkAttrs (Some "B") None (Some true)) None)]).
End Fixture.

Module Fixture2.
(** [filter(arr, # > 2)] where the item of [arr] carries a name of its own. *)
Definition row : Def := named "row" (SScalar Kind.Int).

Definition namedItems : EditorState :=
  mkState "filter(arr, # > 2)" 0 Sample.directTree
          (mkScope (("arr", plain (SSlice row)) :: BuiltIn.variables) []).
End Fixture2.

Module Fixture3.
(** [a + b] with [a : int] and [b : int8] *)
Definition mixedSum : EditorState :=
  mkState "a + b" 0 Sample.sumTree
          (mkScope [("a", Sample.int); ("b", scalar Kind.Int8)] []).





(** A host scope that replaces the built-in [filter] by an int. *)
Definition host : Scope := mkScope [("filter", Sample.int)] [].
Definition registry : Scope :=
  mkScope [("filter", BuiltIn.filter); ("map", BuiltIn.map)] [].
End Fixture3.

Module Fixture4.
(** [arr[0]] with [arr : slice<int>], and [f(1)] with [f : func(x int) int] *)
Definition indexTree : Syntax.Tree :=
  Syntax.T Sample.top 0 6
    [Syntax.T (Sample.expr Nodes.IndexExpr) 0 6
       [Syntax.T (Sample.expr Nodes.VarName) 0 3 [];
        Syntax.T (Sample.token "[") 3 4 [];
        Syntax.T (Sample.expr Nodes.Integer) 4 5 [];
        Syntax.T (Sample.token "]") 5 6 []]].

Definition indexed : EditorState :=
  mkState "arr[0]" 0 indexTree (mkScope [("arr", Sample.sliceInt)] []).


End Fixture4.

(** ** Records *)

Unset Implicit Arguments.

Section RecordFacts.
Variable V : Type.
Implicit Types (r a b : Rec.t V) (k : string) (v : V).

Lemma get_set r k v k' :
  Rec.get (Rec.set r k v) k' = if String.eqb k k' then Some v else Rec.get r k'.
Proof.
  induction r as [|[k0 v0] r IH]; simpl.
  - destruct (String.eqb k k'); reflexivity.
  - destruct (String.eqb k0 k) eqn:E0.
    + apply String.eqb_eq in E0; subst k0. simpl.
      destruct (String.eqb k k'); reflexivity.
    + simpl. destruct (String.eqb k0 k') eqn:E1.
      * apply String.eqb_eq in E1; subst k0.
        rewrite String.eqb_sym, E0. reflexivity.
      * exact IH.
Qed.

Lemma get_None_keys r k : Rec.get r k = None <-> ~ In k (Rec.keys r).
Proof.
  induction r as [|[k0 v0] r IH]; simpl.
  - tauto.
  - destruct (String.eqb k0 k) eqn:E.
    + apply String.eqb_eq in E. split; [discriminate | tauto].
    + apply String.eqb_neq in E. rewrite IH. tauto.
Qed.

Lemma keys_set r k v :
  Rec.keys (Rec.set r k v)
  = if Rec.has r k then Rec.keys r else Rec.keys r ++ [k].
Proof.
  unfold Rec.has.
  induction r as [|[k0 v0] r IH]; simpl; [reflexivity|].
  destruct (String.eqb k0 k) eqn:E; simpl.
  - apply String.eqb_eq in E. now subst.
  - rewrite IH. destruct (Rec.get r k); reflexivity.
Qed.

Lemma NoDup_set r k v : NoDup (Rec.keys r) -> NoDup (Rec.keys (Rec.set r k v)).
Proof.
  intros H. rewrite keys_set. unfold Rec.has.
  destruct (Rec.get r k) eqn:E; [exact H|].
  apply get_None_keys in E.
  apply NoDup_app; [exact H | repeat constructor; simpl; tauto |].
  intros x Hx [<-|[]]. contradiction.
Qed.

Lemma NoDup_spread b : forall a,
  NoDup (Rec.keys a) -> NoDup (Rec.keys (Rec.spread a b)).
Proof.
  unfold Rec.spread.
  induction b as [|[k v] b IH]; intros a H; simpl; [exact H|].
  apply IH, NoDup_set, H.
Qed.

(** Reading [{...a, ...b}]: the property of [b] when it has one. *)
Lemma get_spread b : forall a k,
  NoDup (Rec.keys b) ->
  Rec.get (Rec.spread a b) k
  = match Rec.get b k with Some v => Some v | None => Rec.get a k end.
Proof.
  unfold Rec.spread.
  induction b as [|[k0 v0] b IH]; intros a k H; simpl; [reflexivity|].
  inversion H as [|? ? Hin Hnd]; subst.
  rewrite IH by assumption. rewrite get_set.
  destruct (String.eqb k0 k) eqn:E.
  - apply String.eqb_eq in E; subst k0.
    apply get_None_keys in Hin. now rewrite Hin.
  - reflexivity.
Qed.

Lemma has_get r k : Rec.has r k = true <-> exists v, Rec.get r k = Some v.
Proof.
  unfold Rec.has. destruct (Rec.get r k); split; eauto; try discriminate.
  intros [? ?]; discriminate.
Qed.
End RecordFacts.

(** ** Shapes and kinds *)

Lemma kind_eqb_eq a b : Kind.eqb a b = true <-> a = b.
Proof. unfold Kind.eqb. destruct (Kind.eq_dec a b); split; congruence. Qed.

Lemma kind_eqb_refl a : Kind.eqb a a = true.
Proof. now apply kind_eqb_eq. Qed.

Lemma kind_eqb_neq a b : Kind.eqb a b = false <-> a <> b.
Proof. unfold Kind.eqb. destruct (Kind.eq_dec a b); split; congruence. Qed.

Lemma type_Ret t k :
  type t = Ret k -> exists sh a m, t = Obj sh a m /\ kindOfShape sh = k.
Proof. destruct t as [|sh a m]; simpl; [discriminate|]. intros [= <-]. eauto. Qed.

Lemma type_slice t :
  type t = Ret Kind.Slice -> exists i a m, t = Obj (SSlice i) a m.
Proof. destruct t as [|[] a m]; simpl; try discriminate. eauto. Qed.

Lemma type_scalar t k :
  type t = Ret (Kind.Scalar k) -> exists a m, t = Obj (SScalar k) a m.
Proof. destruct t as [|[] a m]; simpl; try discriminate. intros [= ->]. eauto. Qed.

Lemma orElse_None (A : Type) (x : option A) : orElse x None = x.
Proof. destruct x; reflexivity. Qed.

Lemma mergeAttrs_noAttrs b : mergeAttrs noAttrs b = b.
Proof. destruct b as [n v e]. unfold mergeAttrs; simpl. now rewrite !orElse_None. Qed.

(** ** C1: generic unification of the built-in map *)

(** C1. Calling the built-in [map] with an array argument of type slice<int>
    and a predicate argument whose type is bool binds T to the item type int
    and R to bool, and the first declared return of the resolved signature is
    slice<bool>. *)
Theorem map_call_type (arr pred : Def) :
  type arr = Ret Kind.Slice ->
  type (item arr) = Ret (Kind.Scalar Kind.Int) ->
  type pred = Ret (Kind.Scalar Kind.Bool) ->
  exists m t r,
    resolvedGenerics BuiltIn.TR_any (args BuiltIn.map) [arr; pred] "map" = Ret m
    /\ lookup m "T" = item arr
    /\ lookup m "R" = pred
    /\ resolveFuncGenerics BuiltIn.map [arr; pred] "map" = Ret t
    /\ nth_error (returns t) 0 = Some r
    /\ type r = Ret Kind.Slice
    /\ type (item r) = Ret (Kind.Scalar Kind.Bool).
Proof.
  intros Ha Hi Hp.
  destruct (@type_slice _ Ha) as (i & a & m & ->). simpl in Hi.
  destruct (@type_scalar _ _ Hi) as (ia & im & ->).
  destruct (@type_scalar _ _ Hp) as (pa & pm & ->).
  exists [("R", Obj (SScalar Kind.Bool) pa pm); ("T", Obj (SScalar Kind.Int) ia im)].
  eexists. exists (plain (SSlice (Obj (SScalar Kind.Bool) pa pm))).
  repeat split; try reflexivity.
  cbn. unfold mergeAttrs; simpl. rewrite !orElse_None.
  destruct pa; reflexivity.
Qed.

Lemma map_call_type_witness :
  exists m t r,
    resolvedGenerics BuiltIn.TR_any (args BuiltIn.map)
      [Sample.sliceInt; Sample.bool] "map" = Ret m
    /\ lookup m "T" = item Sample.sliceInt
    /\ lookup m "R" = Sample.bool
    /\ resolveFuncGenerics BuiltIn.map [Sample.sliceInt; Sample.bool] "map" = Ret t
    /\ nth_error (returns t) 0 = Some r
    /\ type r = Ret Kind.Slice
    /\ type (item r) = Ret (Kind.Scalar Kind.Bool).
Proof.
  apply (map_call_type Sample.sliceInt Sample.bool); reflexivity.
Defined.

(** ** C8: equality of definitions of different kinds *)

(** C8 as stated (either operand may be the nil one) fails: nil against
    optional<int> is rejected although one side is optional and the other
    nil. *)
Lemma isEquals_nil_first_rejected :
  ~ (forall a b ka kb,
       type a = Ret ka -> type b = Ret kb -> ka <> kb ->
       (isEquals a b = true <->
        (isNumber a = Ret true /\ isNumber b = Ret true)
        \/ ((ka = Kind.Optional \/ ka = Kind.Pointer) /\ kb = Kind.Scalar Kind.Nil)
        \/ ((kb = Kind.Optional \/ kb = Kind.Pointer) /\ ka = Kind.Scalar Kind.Nil))).
Proof.
  intros H.
  specialize (H Sample.nil Sample.optionalInt _ _ eq_refl eq_refl).
  assert (E : isEquals Sample.nil Sample.optionalInt = true).
  { apply H; [discriminate|]. right; right. split; [now left | reflexivity]. }
  discriminate E.
Qed.

(** C8 (amended). For non-null definitions of different kinds, [isEquals a b]
    holds exactly when both are numeric, or [a] is optional or pointer and
    [b] is nil; int equals the float tag, optional<int> and pointer<int>
    equal nil, slice<int> does not. *)
Theorem isEquals_differing_kinds :
  (forall a b ka kb,
     type a = Ret ka -> type b = Ret kb -> ka <> kb ->
     (isEquals a b = true <->
      (isNumber a = Ret true /\ isNumber b = Ret true)
      \/ ((ka = Kind.Optional \/ ka = Kind.Pointer) /\ kb = Kind.Scalar Kind.Nil)))
  /\ isEquals Sample.int Sample.float = true
  /\ isEquals Sample.optionalInt Sample.nil = true
  /\ isEquals Sample.pointerInt Sample.nil = true
  /\ isEquals Sample.sliceInt Sample.nil = false.
Proof.
  split; [|repeat split; reflexivity].
  intros a b ka kb Ha Hb Hne.
  destruct (@type_Ret _ _ Ha) as (sa & aa & ma & -> & Hka).
  destruct (@type_Ret _ _ Hb) as (sb & ab & mb & -> & Hkb).
  assert (Hd : Kind.eqb (kindOfShape sa) (kindOfShape sb) = false)
    by (apply kind_eqb_neq; congruence).
  assert (E : isEquals (Obj sa aa ma) (Obj sb ab mb)
              = (isNumberKind ka && isNumberKind kb)
                || ((Kind.eqb ka Kind.Optional || Kind.eqb ka Kind.Pointer)
                    && Kind.eqb kb (Kind.Scalar Kind.Nil))).
  { subst ka kb. destruct sa; simpl in Hd |- *; rewrite Hd; reflexivity. }
  rewrite E. unfold isNumber. simpl. rewrite Hka, Hkb.
  rewrite orb_true_iff, !andb_true_iff, orb_true_iff, !kind_eqb_eq.
  split; (intros [[H1 H2]|H]; [left | right; exact H]).
  - now rewrite H1, H2.
  - injection H1 as H1. injection H2 as H2. now split.
Qed.

Lemma isEquals_differing_kinds_witness :
  isEquals Sample.optionalInt Sample.nil = true.
Proof.
  apply (proj1 isEquals_differing_kinds Sample.optionalInt Sample.nil
           Kind.Optional (Kind.Scalar Kind.Nil) eq_refl eq_refl).
  - discriminate.
  - right. split; [now left | reflexivity].
Defined.

(** ** C10: unsigned integers of unspecified width are not numbers *)

Lemma nameIs_at st n nm :
  nameIs st n nm = true ->
  exists t, Syntax.at_ (tree st) n = Some t /\ Syntax.name (Syntax.type t) = nm.
Proof.
  unfold nameIs. destruct (Syntax.at_ (tree st) n) as [t|]; [|discriminate].
  intros H. apply String.eqb_eq in H. eauto.
Qed.

(** C10. [isNumber] is false on uint and uintptr; hence a binary arithmetic
    expression whose two operands resolve to uint is not widened to the float
    tag: its type is the first operand's definition, of kind uint. *)
Theorem uint_is_not_number :
  (forall t,
     type t = Ret (Kind.Scalar Kind.Uint) \/ type t = Ret (Kind.Scalar Kind.Uintptr) ->
     isNumber t = Ret false)
  /\ (forall fuel st node o c1 c2 cs r l,
        nameIs st node Nodes.BinaryExpr = true ->
        Syntax.getChild (tree st) node Groups.Op = Some o ->
        nameIs st o Nodes.ArithmeticOp = true ->
        Syntax.getChildren (tree st) node Groups.Expr = c1 :: c2 :: cs ->
        getDefinition fuel st (Some c1) = Ret r ->
        getDefinition fuel st (Some c2) = Ret l ->
        type r = Ret (Kind.Scalar Kind.Uint) ->
        type l = Ret (Kind.Scalar Kind.Uint) ->
        getDefinition (S fuel) st (Some node) = Ret r
        /\ type r <> Ret (Kind.Scalar Kind.Float)).
Proof.
  split.
  - intros t [H|H]; unfold isNumber; rewrite H; reflexivity.
  - intros fuel st node o c1 c2 cs r l Hn Ho Hop Hcs Hr Hl Tr Tl.
    split; [|rewrite Tr; discriminate].
    destruct (@nameIs_at _ _ _ Hn) as (t & Ht & Hnm).
    destruct (@nameIs_at _ _ _ Hop) as (ot & Hot & Honm).
    simpl. unfold definition. rewrite Ht, Hnm. cbn -[binary].
    unfold binary. rewrite Ho. unfold view. rewrite Hot. cbn [bind].
    rewrite Honm. cbn -[getDefinition isEquals].
    rewrite Hcs. cbn [nth_error]. rewrite Hr, Hl. cbn [bind].
    unfold isNumber. rewrite Tr. cbn [bind isNumberKind].
    destruct (@type_scalar _ _ Tr) as (ra & rm & ->).
    destruct (@type_scalar _ _ Tl) as (la & lm & ->).
    reflexivity.
Qed.

Lemma uint_is_not_number_witness :
  getDefinition 2 Sample.unsignedSum (Some [0]) = Ret (withName Sample.uint "a")
  /\ type (withName Sample.uint "a") <> Ret (Kind.Scalar Kind.Float).
Proof.
  apply (proj2 uint_is_not_number 1 Sample.unsignedSum [0] [1; 0] [0; 0] [2; 0] []
           (withName Sample.uint "a") (withName Sample.uint "b"));
    reflexivity.
Defined.

(** ** C2: outcomes of the resolver that are not a definition *)

(** C2 (the code departs from it). On [x.b], where the struct [x] has no
    member [b], [getDefinition] returns null; on [x.b.c] the member lookup on
    that null raises; and resolving a generic function that declares no
    parameter against one argument raises on the missing parameter. *)
Theorem getDefinition_null_and_raise :
  getDefinition 3 Sample.selector (Some [0]) = Ret Null
  /\ getDefinition 4 Sample.chain (Some [0]) = Throws
  /\ resolveFuncGenerics Sample.thunk [Sample.int] "make" = Throws.
Proof. repeat split; vm_compute; reflexivity. Qed.

(** ** C4: the nil-coalescing conditional *)

(** C4 (the code departs from it). With [x : optional<int>], the type of
    [x == nil ? 0 : x] comes out as any, because the unwrap is attempted only
    when the true branch is the optional one; the mirrored [x != nil ? x : 0]
    is unwrapped to int. *)
Theorem coalesce_equal_nil_is_any :
  getDefinition 4 Sample.coalesce (Some [0]) = Ret (scalar Kind.Any)
  /\ getDefinition 4 Sample.guard (Some [0]) = Ret Sample.int.
Proof. split; vm_compute; reflexivity. Qed.

(** ** C6: direct fields against promoted members *)

(** C6 (the code departs from it). For [struct A { B; X string }] embedding
    [struct B { X int }], the table of [getMembers] maps [X] to the int field
    promoted from [B], while [getMember] answers the direct string field. *)
Theorem getMembers_promoted_overwrites_direct :
  (exists ms, getMembers 2 Sample.embedding Sample.structA = Ret ms
              /\ Rec.get ms "X" = Some (named "X" (SScalar Kind.Int)))
  /\ getMember 2 Sample.embedding Sample.structA "X"
     = Ret (named "X" (SScalar Kind.String)).
Proof. split; [eexists; split|]; vm_compute; reflexivity. Qed.

(** ** C9: termination of member resolution and named-type indirection *)

Lemma getBaseType_selfRef fuel a m :
  getBaseType fuel Sample.selfRef (Obj (SDefined "A") a m) = OutOfFuel.
Proof.
  revert a m. induction fuel as [|fuel IH]; intros a m; [reflexivity|].
  cbn. apply IH.
Qed.

Lemma getMember_selfRef name fuel a :
  getMember fuel Sample.selfRef (Obj (SDefined "A") a None) name = OutOfFuel.
Proof.
  revert a. induction fuel as [|fuel IH]; intros a; [reflexivity|].
  cbn. unfold named. rewrite IH. reflexivity.
Qed.

Lemma getMembers_selfRef fuel a :
  getMembers fuel Sample.selfRef (Obj (SDefined "A") a None) = OutOfFuel.
Proof.
  revert a. induction fuel as [|fuel IH]; intros a; [reflexivity|].
  cbn. unfold named. rewrite IH. reflexivity.
Qed.

Lemma getBaseType_mutualRef fuel :
  forall a m,
    getBaseType fuel Sample.mutualRef (Obj (SDefined "A") a m) = OutOfFuel
    /\ getBaseType fuel Sample.mutualRef (Obj (SDefined "B") a m) = OutOfFuel.
Proof.
  induction fuel as [|fuel IH]; intros a m; [split; reflexivity|].
  split; cbn; apply IH.
Qed.

Lemma getMember_selfEmbedding fuel :
  getMember fuel Sample.selfEmbedding Sample.node "X" = OutOfFuel.
Proof.
  induction fuel as [|fuel IH]; [reflexivity|].
  change (getMember (S fuel) Sample.selfEmbedding Sample.node "X")
    with (let* member := getMember fuel Sample.selfEmbedding Sample.node "X" in
          if isObject member then Ret member else Ret Null).
  now rewrite IH.
Qed.

Lemma getMembers_selfEmbedding fuel :
  getMembers fuel Sample.selfEmbedding Sample.node = OutOfFuel.
Proof.
  induction fuel as [|fuel IH]; [reflexivity|].
  change (getMembers (S fuel) Sample.selfEmbedding Sample.node)
    with (let* promoted := getMembers fuel Sample.selfEmbedding Sample.node in
          Ret (Rec.spread
                 (Rec.spread []
                    [("Node", Obj (SDefined "Node")
                                  (mkAttrs (Some "Node") None (Some true)) None)])
                 promoted)).
  now rewrite IH.
Qed.

(** A defined name that is not registered resolves to itself: the member
    lookup on it does not come back either. *)
Lemma getMember_unregistered name fuel a :
  getMember fuel (mkScope [] []) (Obj (SDefined "Missing") a None) name
  = OutOfFuel.
Proof.
  induction fuel as [|fuel IH]; [reflexivity|].
  cbn. now rewrite IH.
Qed.

(** C9 as stated fails: on a registry in which [A] names itself none of the
    three functions returns, whatever the number of steps allowed; neither
    does [getBaseType] when [A] and [B] name each other, nor the member
    functions on a struct that embeds its own named type. *)
Lemma cyclic_registry_diverges :
  ~ (exists fuel r,
       getBaseType fuel Sample.selfRef (plain (SDefined "A")) = Ret r)
  /\ ~ (exists fuel r,
          getMember fuel Sample.selfRef (plain (SDefined "A")) "X" = Ret r)
  /\ ~ (exists fuel r,
          getMembers fuel Sample.selfRef (plain (SDefined "A")) = Ret r)
  /\ ~ (exists fuel r,
          getBaseType fuel Sample.mutualRef (plain (SDefined "A")) = Ret r)
  /\ ~ (exists fuel r,
          getMember fuel Sample.selfEmbedding Sample.node "X" = Ret r)
  /\ ~ (exists fuel r,
          getMembers fuel Sample.selfEmbedding Sample.node = Ret r).
Proof.
  repeat split; intros (fuel & r & H); unfold plain in H.
  - now rewrite getBaseType_selfRef in H.
  - now rewrite getMember_selfRef in H.
  - now rewrite getMembers_selfRef in H.
  - now rewrite (proj1 (getBaseType_mutualRef fuel _ _)) in H.
  - now rewrite getMember_selfEmbedding in H.
  - now rewrite getMembers_selfEmbedding in H.
Qed.

Lemma ReturnsFrom_le s d n n' : n <= n' -> ReturnsFrom s d n -> ReturnsFrom s d n'.
Proof. intros Hle H fuel Hf. apply H. lia. Qed.

Lemma In_keys_get (V : Type) (r : Rec.t V) k :
  In k (Rec.keys r) -> exists v, Rec.get r k = Some v.
Proof.
  intros Hin. destruct (Rec.get r k) eqn:E; [eauto|].
  apply get_None_keys in E. contradiction.
Qed.

Lemma resolveRef_object s sh a m : exists r, resolveRef s (Obj sh a m) = Ret r.
Proof. destruct sh; simpl; eauto. destruct (Rec.has (types s) typeName0); eauto. Qed.

Lemma isEmbedded_true field :
  isEmbedded field = Ret true -> embeddedRef field = true.
Proof.
  destruct field as [|sh a m]; [discriminate|].
  unfold isEmbedded; simpl. intros [= H].
  apply andb_true_iff in H as [H1 H2]. apply kind_eqb_eq in H1.
  destruct sh; try discriminate. exact H2.
Qed.

Lemma isEmbedded_object sh a m : exists e, isEmbedded (Obj sh a m) = Ret e.
Proof. unfold isEmbedded; simpl; eauto. Qed.

Section StructLoops.
Variable s : Scope.
Variable fields : Rec.t Def.
Variable bound : nat.
Hypothesis objects : forall f field, Rec.get fields f = Some field -> field <> Null.
Hypothesis resolved :
  forall f field r,
    Rec.get fields f = Some field -> embeddedRef field = true ->
    resolveRef s field = Ret r -> ReturnsFrom s r bound.

Lemma promoteFirst_returns fuel name :
  bound <= fuel ->
  forall fs, incl fs (Rec.keys fields) ->
  exists r, promoteFirst s fields (fun r => getMember fuel s r name) fs = Ret r.
Proof.
  intros Hf fs. induction fs as [|f fs IH]; intros Hin; simpl; [eauto|].
  assert (Hf' : In f (Rec.keys fields)) by (apply Hin; now left).
  destruct (In_keys_get _ _ _ Hf') as (field & Hget).
  unfold lookup. rewrite Hget.
  assert (Hrest : incl fs (Rec.keys fields))
    by (intros x Hx; apply Hin; now right).
  specialize (IH Hrest).
  pose proof (objects _ _ Hget) as Hobj.
  destruct field as [|sh a m]; [congruence|].
  destruct (isEmbedded_object sh a m) as (e & He). rewrite He. cbn [bind].
  destruct e; [|exact IH].
  destruct (resolveRef_object s sh a m) as (r & Hr). rewrite Hr. cbn [bind].
  destruct (resolved _ _ _ Hget (isEmbedded_true _ He) Hr _ Hf) as (_ & Hm & _).
  destruct (Hm name) as (member & ->). cbn [bind].
  destruct (isObject member); eauto.
Qed.

Lemma promoteAll_returns fuel :
  bound <= fuel ->
  forall fs members, incl fs (Rec.keys fields) ->
  exists ms, promoteAll s fields (getMembers fuel s) fs members = Ret ms.
Proof.
  intros Hf fs. induction fs as [|f fs IH]; intros members Hin; simpl; [eauto|].
  assert (Hf' : In f (Rec.keys fields)) by (apply Hin; now left).
  destruct (In_keys_get _ _ _ Hf') as (field & Hget).
  unfold lookup. rewrite Hget.
  assert (Hrest : incl fs (Rec.keys fields))
    by (intros x Hx; apply Hin; now right).
  pose proof (objects _ _ Hget) as Hobj.
  destruct field as [|sh a m]; [congruence|].
  destruct (isEmbedded_object sh a m) as (e & He). rewrite He. cbn [bind].
  destruct e; [|apply IH, Hrest].
  destruct (resolveRef_object s sh a m) as (r & Hr). rewrite Hr. cbn [bind].
  destruct (resolved _ _ _ Hget (isEmbedded_true _ He) Hr _ Hf) as (_ & _ & (ms & ->)).
  cbn [bind]. apply IH, Hrest.
Qed.
End StructLoops.

(** A common bound for the embedded fields of a struct. *)
Lemma embedded_bound s fields :
  (forall f field,
     Rec.get fields f = Some field -> embeddedRef field = true ->
     exists bound,
       forall r, resolveRef s field = Ret r -> ReturnsFrom s r bound) ->
  forall fs, exists bound,
    forall f field r,
      In f fs -> Rec.get fields f = Some field -> embeddedRef field = true ->
      resolveRef s field = Ret r -> ReturnsFrom s r bound.
Proof.
  intros H fs. induction fs as [|f0 fs (b & IH)].
  - exists 0. intros ? ? ? [].
  - destruct (Rec.get fields f0) as [field0|] eqn:E0.
    + destruct (embeddedRef field0) eqn:Eemb.
      * destruct (H _ _ E0 Eemb) as (b0 & Hb0).
        exists (Nat.max b b0). intros f field r [<-|Hin] Hget Hemb Hr.
        -- rewrite E0 in Hget. injection Hget as <-.
           eapply ReturnsFrom_le; [|apply Hb0, Hr]. lia.
        -- eapply ReturnsFrom_le; [|eapply IH; eauto]. lia.
      * exists b. intros f field r [<-|Hin] Hget Hemb Hr.
        -- rewrite E0 in Hget. injection Hget as <-. congruence.
        -- eapply IH; eauto.
    + exists b. intros f field r [<-|Hin] Hget Hemb Hr.
      * congruence.
      * eapply IH; eauto.
Qed.

Lemma resolvable_bound s src :
  Resolvable s src ->
  exists bound,
    ReturnsFrom s src bound
    /\ (forall r, resolveRef s src = Ret r -> ReturnsFrom s r bound).
Proof.
  induction 1 as [n a m d Hget Hd (b & IHd & _) | fields a m Hobj Hres IH | sh a m Hs Hd].
  - assert (Hhas : Rec.has (types s) n = true) by (apply has_get; eauto).
    assert (Hlook : lookup (types s) n = d) by (unfold lookup; now rewrite Hget).
    assert (Hsrc : ReturnsFrom s (Obj (SDefined n) a m) (S b)).
    { intros [|fuel] Hf; [lia|]. assert (Hb : b <= fuel) by lia.
      destruct (IHd fuel Hb) as ((r & Hbase) & Hmem & (ms & Hms)).
      repeat split.
      - simpl. rewrite Hhas, Hlook. eauto.
      - intros name. simpl.
        destruct (match m with Some m0 => Rec.get m0 name | None => None end);
          [eauto|].
        rewrite Hhas, Hlook. cbn [bind].
        destruct (Hmem name) as (member & ->). cbn [bind].
        destruct (isObject member); eauto.
      - simpl. rewrite Hhas, Hlook. cbn [bind]. rewrite Hms. cbn [bind]. eauto. }
    exists (S b). split; [exact Hsrc|].
    intros r. simpl. rewrite Hhas, Hlook. intros [= <-].
    eapply ReturnsFrom_le; [|exact IHd]. lia.
  - assert (IH' : forall f field,
               Rec.get fields f = Some field -> embeddedRef field = true ->
               exists bound,
                 forall r, resolveRef s field = Ret r -> ReturnsFrom s r bound).
    { intros f field Hg He. destruct (IH f field Hg He) as (b & _ & Hb). eauto. }
    destruct (embedded_bound s fields IH' (Rec.keys fields)) as (b & Hb).
    assert (Hres' : forall f field r,
               Rec.get fields f = Some field -> embeddedRef field = true ->
               resolveRef s field = Ret r -> ReturnsFrom s r b).
    { intros f field r Hg He Hr. eapply Hb; eauto.
      destruct (In_dec string_dec f (Rec.keys fields)) as [Hin|Hnin]; [exact Hin|].
      apply get_None_keys in Hnin. congruence. }
    assert (Hsrc : ReturnsFrom s (Obj (SStruct fields) a m) (S b)).
    { intros [|fuel] Hf; [lia|]. assert (Hfb : b <= fuel) by lia.
      repeat split.
      - simpl. eauto.
      - intros name. simpl.
        destruct (Rec.get fields name); [eauto|].
        destruct (match m with Some m0 => Rec.get m0 name | None => None end);
          [eauto|].
        apply (promoteFirst_returns s fields b Hobj Hres' fuel name Hfb). apply incl_refl.
      - simpl. apply (promoteAll_returns s fields b Hobj Hres' fuel Hfb). apply incl_refl. }
    exists (S b). split; [exact Hsrc|].
    intros r. simpl. intros [= <-]. exact Hsrc.
  - assert (Hsrc : ReturnsFrom s (Obj sh a m) 1).
    { intros [|fuel] Hf; [lia|].
      repeat split.
      - destruct sh; simpl in *; try congruence; eauto.
      - intros name. simpl.
        destruct sh; simpl in *; try congruence;
          destruct (match m with Some m0 => Rec.get m0 name | None => None end);
          eauto.
      - destruct sh; simpl in *; try congruence; eauto. }
    exists 1. split; [exact Hsrc|].
    intros r Hr. destruct sh; simpl in *; try congruence; injection Hr as <-; exact Hsrc.
Qed.

(** C9 (amended). When the named-type references reachable from a definition
    are all registered and their chain is finite, [getBaseType], [getMember]
    and [getMembers] return on it within a common number of steps. *)
Theorem resolution_returns s src :
  Resolvable s src ->
  exists fuel,
    (exists r, getBaseType fuel s src = Ret r)
    /\ (forall name, exists r, getMember fuel s src name = Ret r)
    /\ (exists ms, getMembers fuel s src = Ret ms).
Proof.
  intros H. destruct (resolvable_bound _ _ H) as (b & Hb & _).
  exists b. apply Hb. lia.
Qed.

Lemma structA_resolvable : Resolvable Sample.embedding Sample.structA.
Proof.
  apply res_struct.
  - intros f field. cbn -[String.eqb].
    destruct (String.eqb "B" f); [|destruct (String.eqb "X" f)];
      intros E; inversion E; subst; discriminate.
  - intros f field. cbn -[String.eqb].
    destruct (String.eqb "B" f); [|destruct (String.eqb "X" f)];
      intros E; inversion E; subst; try discriminate.
    intros _. eapply res_defined; [reflexivity|].
    apply res_struct; intros f' field'; cbn -[String.eqb];
      (destruct (String.eqb "X" f'); intros E'; inversion E'; subst; discriminate).
Qed.

Lemma resolution_returns_witness :
  exists fuel,
    (exists r, getBaseType fuel Sample.embedding Sample.structA = Ret r)
    /\ (forall name, exists r,
          getMember fuel Sample.embedding Sample.structA name = Ret r)
    /\ (exists ms, getMembers fuel Sample.embedding Sample.structA = Ret ms).
Proof.
  apply (resolution_returns Sample.embedding Sample.structA).
  exact structA_resolvable.
Defined.

(** ** C3: merging the bindings of the argument positions *)

Lemma collectEach_NoDup collect others l :
  forall idx acc,
    NoDup (Rec.keys acc) -> NoDup (Rec.keys (collectEach collect others l idx acc)).
Proof.
  induction l as [|x l IH]; intros idx acc H; simpl; [exact H|].
  apply IH, NoDup_spread, H.
Qed.

Lemma collectGenerics_NoDup : forall t a, NoDup (Rec.keys (collectGenerics t a)).
Proof.
  fix IH 1. intros [|st ta tm] [|sa aa am]; simpl; try apply NoDup_nil.
  destruct st; simpl; try apply NoDup_nil;
    try (destruct (Kind.eqb _ _); [|apply NoDup_nil]).
  - apply IH.
  - apply IH.
  - apply NoDup_spread, IH.
  - apply NoDup_spread, collectEach_NoDup, NoDup_nil.
  - apply IH.
  - apply IH.
  - repeat constructor. simpl. tauto.
Qed.

Section ArgumentLoop.
Variable fargs : list Def.
Variable name : string.

(** What the loop returns: the bindings it started from, then for every other
    name the binding of the first position that has one. *)
Lemma bindGenerics_get rest :
  forall i g merged k,
    NoDup (Rec.keys g) ->
    bindGenerics fargs name rest i g = Ret merged ->
    Rec.get merged k
    = match Rec.get g k with
      | Some v => Some v
      | None => firstBinding fargs name rest i k
      end.
Proof.
  induction rest as [|a rest IH]; intros i g merged k Hg; simpl.
  - intros [= <-]. destruct (Rec.get g k); reflexivity.
  - destruct (expectedAt fargs name i) as [[e|]| |]; simpl; try discriminate.
    + intros H. rewrite (IH _ _ _ k (NoDup_spread _ _ _ (collectGenerics_NoDup e a)) H).
      rewrite get_spread by exact Hg.
      destruct (Rec.get g k); reflexivity.
    + intros [= <-]. destruct (Rec.get g k); reflexivity.
Qed.

Lemma loopReaches_lt i h :
  loopReaches fargs name i = true -> h < i ->
  exists e, expectedAt fargs name h = Ret (Some e).
Proof.
  unfold loopReaches. rewrite forallb_forall. intros H Hlt.
  specialize (H h). rewrite in_seq in H.
  destruct (expectedAt fargs name h) as [[e|]| |]; eauto;
    (assert (false = true) by (apply H; lia); discriminate).
Qed.

Lemma loopReaches_le i h :
  loopReaches fargs name i = true -> h <= i -> loopReaches fargs name h = true.
Proof.
  unfold loopReaches. rewrite !forallb_forall. intros H Hle x Hx.
  apply H. rewrite in_seq in *. lia.
Qed.

Lemma producedAt_Some actuals i k v :
  Rec.get (producedAt fargs name actuals i) k = Some v ->
  exists a e,
    nth_error actuals i = Some a
    /\ expectedAt fargs name i = Ret (Some e)
    /\ loopReaches fargs name i = true
    /\ Rec.get (collectGenerics e a) k = Some v.
Proof.
  unfold producedAt.
  destruct (nth_error actuals i) as [a|]; [|discriminate].
  destruct (expectedAt fargs name i) as [[e|]| |]; try discriminate.
  destruct (loopReaches fargs name i); [|discriminate].
  eauto 8.
Qed.

Lemma firstBinding_at i :
  forall rest off k v a e,
    (forall h, h < i ->
       exists a' e', nth_error rest h = Some a'
                     /\ expectedAt fargs name (off + h) = Ret (Some e')
                     /\ Rec.get (collectGenerics e' a') k = None) ->
    nth_error rest i = Some a ->
    expectedAt fargs name (off + i) = Ret (Some e) ->
    Rec.get (collectGenerics e a) k = Some v ->
    firstBinding fargs name rest off k = Some v.
Proof.
  induction i as [|i IH]; intros rest off k v a e Hbefore Hnth He Hget.
  - destruct rest as [|a0 rest]; [discriminate|]. injection Hnth as ->.
    simpl. rewrite Nat.add_0_r in He. now rewrite He, Hget.
  - destruct rest as [|a0 rest]; [discriminate|]. simpl in Hnth. simpl.
    destruct (Hbefore 0 ltac:(lia)) as (a' & e' & Hn0 & He0 & Hg0).
    injection Hn0 as <-. rewrite Nat.add_0_r in He0. rewrite He0, Hg0.
    apply (IH rest (S off) k v a e); try assumption.
    + intros h Hh. destruct (Hbefore (S h) ltac:(lia)) as (a' & e'' & Hn & He' & Hg').
      exists a', e''. simpl in Hn. rewrite Nat.add_succ_r in He'. auto.
    + now rewrite Nat.add_succ_r in He.
Qed.

(** The first position that binds [k] decides the merged binding. *)
Lemma bindGenerics_first actuals i k v merged :
  Rec.get (producedAt fargs name actuals i) k = Some v ->
  (forall h, h < i -> Rec.get (producedAt fargs name actuals h) k = None) ->
  bindGenerics fargs name actuals 0 [] = Ret merged ->
  Rec.get merged k = Some v.
Proof.
  intros Hi Hbefore Hm.
  rewrite (bindGenerics_get actuals 0 [] merged k (NoDup_nil _) Hm). simpl.
  destruct (producedAt_Some _ _ _ _ Hi) as (a & e & Hn & He & Hr & Hg).
  apply (firstBinding_at i actuals 0 k v a e); try assumption.
  intros h Hh.
  destruct (loopReaches_lt _ _ Hr Hh) as (e' & He').
  assert (Hlen : h < length actuals).
  { assert (i < length actuals) by (apply nth_error_Some; congruence). lia. }
  destruct (nth_error actuals h) as [a'|] eqn:Hn'.
  2:{ apply nth_error_None in Hn'. lia. }
  exists a', e'. repeat split; [exact He'|].
  specialize (Hbefore h Hh). unfold producedAt in Hbefore.
  rewrite Hn', He', (loopReaches_le _ _ Hr (Nat.lt_le_incl _ _ Hh)) in Hbefore.
  exact Hbefore.
Qed.

(** With parameters that are objects the loop never raises. *)
Lemma expectedAt_returns i :
  fargs <> [] -> Forall (fun p => p <> Null) fargs ->
  exists e, expectedAt fargs name i = Ret e.
Proof.
  intros Hne Hobj. unfold expectedAt.
  set (idx := if (i <? length fargs)%nat then Z.of_nat i
              else (Z.of_nat (length fargs) - 1)%Z).
  assert (Hlen : length fargs <> 0) by (destruct fargs; simpl; congruence).
  assert (Hidx : (0 <= idx < Z.of_nat (length fargs))%Z).
  { unfold idx. destruct (Nat.ltb_spec i (length fargs)); lia. }
  assert (Hin : In (nthZ fargs idx) fargs).
  { unfold nthZ. destruct (Z.ltb_spec idx 0); [lia|]. apply nth_In. lia. }
  rewrite Forall_forall in Hobj. specialize (Hobj _ Hin).
  destruct (nthZ fargs idx) as [|sh a m]; [congruence|].
  simpl. destruct (negb (idx =? Z.of_nat i)%Z); simpl.
  - destruct (match variadic a with Some b => b | None => false end); simpl; eauto.
    destruct (isPredicativeFunc name); simpl; eauto.
    destruct (Kind.eqb _ _ && _); eauto.
  - destruct (isPredicativeFunc name); simpl; eauto.
    destruct (Kind.eqb _ _ && _); eauto.
Qed.

Lemma bindGenerics_returns rest :
  fargs <> [] -> Forall (fun p => p <> Null) fargs ->
  forall i g, exists merged, bindGenerics fargs name rest i g = Ret merged.
Proof.
  intros Hne Hobj. induction rest as [|a rest IH]; intros i g; simpl; [eauto|].
  destruct (expectedAt_returns i Hne Hobj) as ([e|] & ->); simpl; eauto.
Qed.
End ArgumentLoop.

(** The constraint check touches the binding of its own name only. *)
Lemma constrainGeneric_other fg g k' k :
  k' <> k -> Rec.get (constrainGeneric fg g k') k = Rec.get g k.
Proof.
  intros Hne. apply String.eqb_neq in Hne. unfold constrainGeneric.
  set (g1 := if negb (Rec.has g k') then Rec.set g k' (scalar Kind.Any) else g).
  assert (H1 : Rec.get g1 k = Rec.get g k).
  { unfold g1. destruct (negb (Rec.has g k')); [|reflexivity].
    now rewrite get_set, Hne. }
  match goal with
  | |- Rec.get (if ?c then _ else _) k = _ => destruct c
  end; [|exact H1].
  now rewrite get_set, Hne.
Qed.

Lemma constrainGeneric_same fg g k v allowed :
  Rec.get fg k = Some allowed -> Rec.get g k = Some v ->
  Rec.get (constrainGeneric fg g k) k
  = if accepted fg k v then Some v else Some (nth 0 allowed Null).
Proof.
  intros Hfg Hg. unfold constrainGeneric, accepted, Rec.has, lookup.
  rewrite Hg, Hfg. simpl. rewrite Hg.
  destruct (existsb _ allowed); simpl; [exact Hg|].
  now rewrite get_set, String.eqb_refl.
Qed.

Section Constraints.
Variable fg : Generics.
Variable k : string.
Variable allowed : list Def.
Hypothesis declared : Rec.get fg k = Some allowed.

Lemma constrain_first_stays ks :
  forall g,
    Rec.get g k = Some (nth 0 allowed Null) ->
    Rec.get (fold_left (constrainGeneric fg) ks g) k = Some (nth 0 allowed Null).
Proof.
  induction ks as [|k' ks IH]; intros g Hg; simpl; [exact Hg|].
  apply IH. destruct (string_dec k' k) as [->|Hne].
  - rewrite (constrainGeneric_same fg g k _ allowed declared Hg).
    destruct (accepted fg k _); reflexivity.
  - now rewrite constrainGeneric_other.
Qed.

Lemma constrain_rejected ks :
  forall g v,
    In k ks -> Rec.get g k = Some v -> accepted fg k v = false ->
    Rec.get (fold_left (constrainGeneric fg) ks g) k = Some (nth 0 allowed Null).
Proof.
  induction ks as [|k' ks IH]; intros g v Hin Hg Hrej; simpl; [destruct Hin|].
  destruct (string_dec k' k) as [->|Hne].
  - apply constrain_first_stays.
    now rewrite (constrainGeneric_same fg g k v allowed declared Hg), Hrej.
  - destruct Hin as [->|Hin]; [congruence|].
    apply (IH _ v Hin); [|exact Hrej]. now rewrite constrainGeneric_other.
Qed.
End Constraints.

Lemma constrain_accepted fg k v ks :
  forall g,
    incl ks (Rec.keys fg) ->
    Rec.get g k = Some v -> accepted fg k v = true ->
    Rec.get (fold_left (constrainGeneric fg) ks g) k = Some v.
Proof.
  induction ks as [|k' ks IH]; intros g Hin Hg Hacc; simpl; [exact Hg|].
  apply IH; [intros x Hx; apply Hin; now right | | exact Hacc].
  destruct (string_dec k' k) as [->|Hne].
  - destruct (In_keys_get _ fg k (Hin k (or_introl eq_refl))) as (allowed & Hfg).
    now rewrite (constrainGeneric_same fg g k v allowed Hfg Hg), Hacc.
  - now rewrite constrainGeneric_other.
Qed.

Lemma expectedAt_no_parameter name i : expectedAt [] name i = Throws.
Proof.
  unfold expectedAt. simpl.
  destruct (Z.of_nat i) eqn:E; try reflexivity. lia.
Qed.

(** C3 as stated fails for the final substitution: for
    [func<T: string>(a T, b T)] called with [(int, bool)] both positions bind
    T, the earlier one to int, and the substitution handed to
    [patchGenerics] maps T to string. *)
Lemma earliest_binding_not_final :
  ~ (forall fg fargs name actuals i j k vi vj final,
       i < j ->
       Rec.get (producedAt fargs name actuals i) k = Some vi ->
       Rec.get (producedAt fargs name actuals j) k = Some vj ->
       (forall h, h < i -> Rec.get (producedAt fargs name actuals h) k = None) ->
       resolvedGenerics fg fargs actuals name = Ret final ->
       Rec.get final k = Some vi).
Proof.
  intros H.
  specialize (H [("T", [Sample.str])] (args Sample.pair) "pair"
                [Sample.int; Sample.bool] 0 1 "T" Sample.int Sample.bool
                [("T", Sample.str)]).
  assert (E : Rec.get [("T", Sample.str)] "T" = Some Sample.int).
  { apply H; try reflexivity; [lia | intros h Hh; lia]. }
  discriminate E.
Qed.

(** C3 (amended). When two positions bind the same generic name, the binding
    of the earlier (first) one is the one the merge keeps: no later position
    overrides it and no error is raised.  It is also the binding of the final
    substitution when it passes the constraint list declared for the name;
    otherwise the final substitution holds the first declared constraint. *)
Theorem earliest_binding_wins fg fargs name actuals i j k vi vj :
  Forall (fun p => p <> Null) fargs ->
  i < j ->
  Rec.get (producedAt fargs name actuals i) k = Some vi ->
  Rec.get (producedAt fargs name actuals j) k = Some vj ->
  (forall h, h < i -> Rec.get (producedAt fargs name actuals h) k = None) ->
  exists merged final,
    bindGenerics fargs name actuals 0 [] = Ret merged
    /\ Rec.get merged k = Some vi
    /\ resolvedGenerics fg fargs actuals name = Ret final
    /\ (accepted fg k vi = true -> Rec.get final k = Some vi)
    /\ (accepted fg k vi = false ->
        exists allowed,
          Rec.get fg k = Some allowed
          /\ Rec.get final k = Some (nth 0 allowed Null)).
Proof.
  intros Hobj Hlt Hi Hj Hfirst.
  assert (Hne : fargs <> []).
  { intros ->. destruct (producedAt_Some _ _ _ _ _ _ Hi) as (a & e & _ & He & _).
    rewrite expectedAt_no_parameter in He. discriminate. }
  destruct (bindGenerics_returns fargs name actuals Hne Hobj 0 []) as (merged & Hm).
  pose proof (bindGenerics_first _ _ _ _ _ _ _ Hi Hfirst Hm) as Hk.
  exists merged, (fold_left (constrainGeneric fg) (Rec.keys fg) merged).
  unfold resolvedGenerics. rewrite Hm. simpl.
  repeat split; try assumption.
  - intros Hacc. apply constrain_accepted; [apply incl_refl | exact Hk | exact Hacc].
  - intros Hrej. unfold accepted in Hrej.
    destruct (Rec.get fg k) as [allowed|] eqn:Hfg; [|discriminate].
    exists allowed. split; [reflexivity|].
    apply (constrain_rejected fg k allowed Hfg _ _ vi); try assumption.
    + destruct (In_dec string_dec k (Rec.keys fg)) as [Hin|Hnin]; [exact Hin|].
      apply get_None_keys in Hnin. congruence.
    + unfold accepted. now rewrite Hfg.
Qed.

Lemma earliest_binding_wins_witness :
  exists merged final,
    bindGenerics (args Sample.pair) "pair" [Sample.int; Sample.bool] 0 [] = Ret merged
    /\ Rec.get merged "T" = Some Sample.int
    /\ resolvedGenerics [("T", [Sample.str])] (args Sample.pair)
         [Sample.int; Sample.bool] "pair" = Ret final
    /\ (accepted [("T", [Sample.str])] "T" Sample.int = true ->
        Rec.get final "T" = Some Sample.int)
    /\ (accepted [("T", [Sample.str])] "T" Sample.int = false ->
        exists allowed,
          Rec.get [("T", [Sample.str])] "T" = Some allowed
          /\ Rec.get final "T" = Some (nth 0 allowed Null)).
Proof.
  apply (earliest_binding_wins [("T", [Sample.str])] (args Sample.pair) "pair"
           [Sample.int; Sample.bool] 0 1 "T" Sample.int Sample.bool).
  - repeat constructor; discriminate.
  - lia.
  - reflexivity.
  - reflexivity.
  - intros h Hh. lia.
Defined.

(** ** C7: declarations of the same name in the local scope *)

Lemma get_spread_absent (V : Type) (b : Rec.t V) :
  forall a k, Rec.get b k = None -> Rec.get (Rec.spread a b) k = Rec.get a k.
Proof.
  unfold Rec.spread.
  induction b as [|[k0 v0] b IH]; intros a k H; simpl in *; [reflexivity|].
  destruct (String.eqb k0 k) eqn:E; [discriminate|].
  rewrite IH by exact H. now rewrite get_set, E.
Qed.

Section LocalScope.
Variable rec : option SyntaxNode -> Outcome Def.
Variable st : EditorState.
Variable limit : nat.
Variable x : string.

Lemma toVarDeclaration_named n def :
  toVarDeclaration rec st n = Ret (Some def) ->
  exists nm, nameKey def = Ret nm /\ name (attrsOf def) = Some nm.
Proof.
  unfold toVarDeclaration.
  destruct (view st (Some n)) as [t| |]; simpl; try discriminate.
  destruct (Syntax.isError (Syntax.type t)); [discriminate|].
  destruct (Syntax.getChild (tree st) n Nodes.DefName) as [nameNode|]; [|discriminate].
  destruct (rec _) as [d| |]; simpl; try discriminate.
  destruct (Syntax.prevSibling n), (Syntax.parent n); simpl; try discriminate;
    (unfold view; destruct (Syntax.at_ (tree st) nameNode) as [nt|];
     simpl; try discriminate;
     intros [= <-]; exists (text st nt); destruct d; simpl; auto).
Qed.

Lemma declaredAt_named n def :
  declaredAt rec st limit n = Ret (Some def) ->
  exists nm, nameKey def = Ret nm /\ name (attrsOf def) = Some nm.
Proof.
  unfold declaredAt.
  destruct (view st (Some n)) as [t| |]; simpl; try discriminate.
  destruct (_ && _); [apply toVarDeclaration_named | discriminate].
Qed.

(** Once the scope has a binding for [x], no later declaration replaces it. *)
Lemma declare_keeps nodes :
  forall acc v,
    NoDup (Rec.keys acc) -> Rec.get acc x = Some v ->
    (forall n, In n nodes -> exists d, declaredAt rec st limit n = Ret d) ->
    exists scope,
      declare rec st limit nodes acc = Ret scope /\ Rec.get scope x = Some v.
Proof.
  induction nodes as [|n nodes IH]; intros acc v Hnd Hget Hall; simpl; [eauto|].
  destruct (Hall n (or_introl eq_refl)) as (d & Hd). rewrite Hd. simpl.
  assert (Hall' : forall n', In n' nodes -> exists d, declaredAt rec st limit n' = Ret d)
    by (intros n' Hn'; apply Hall; now right).
  destruct d as [def|]; [|now apply IH].
  destruct (declaredAt_named _ _ Hd) as (nm & -> & _). simpl.
  apply IH; [| |exact Hall'].
  - apply NoDup_spread. repeat constructor. simpl. tauto.
  - rewrite get_spread by exact Hnd. now rewrite Hget.
Qed.

(** The first declaration of [x] that the scan enters is the one the scope
    ends up with. *)
Lemma declare_first before :
  forall acc d1 after def1,
    Rec.get acc x = None ->
    (forall n def, In n before ->
                   declaredAt rec st limit n = Ret (Some def) ->
                   name (attrsOf def) <> Some x) ->
    declaredAt rec st limit d1 = Ret (Some def1) ->
    name (attrsOf def1) = Some x ->
    (forall n, In n (before ++ d1 :: after) ->
               exists d, declaredAt rec st limit n = Ret d) ->
    exists scope,
      declare rec st limit (before ++ d1 :: after) acc = Ret scope
      /\ Rec.get scope x = Some def1.
Proof.
  induction before as [|n before IH];
    intros acc d1 after def1 Hacc Hbefore Hd1 Hx Hall; simpl.
  - rewrite Hd1. simpl.
    destruct (declaredAt_named _ _ Hd1) as (nm & Hk & Hnm).
    rewrite Hk. simpl. assert (nm = x) by congruence. subst nm.
    apply declare_keeps.
    + apply NoDup_spread. repeat constructor. simpl. tauto.
    + rewrite get_spread_absent by exact Hacc. simpl. now rewrite String.eqb_refl.
    + intros n Hn. apply Hall. now right.
  - destruct (Hall n (or_introl eq_refl)) as (d & Hd). rewrite Hd. simpl.
    assert (Hall' : forall n', In n' (before ++ d1 :: after) ->
                               exists d, declaredAt rec st limit n' = Ret d)
      by (intros n' Hn'; apply Hall; now right).
    assert (Hbefore' : forall n' def, In n' before ->
                         declaredAt rec st limit n' = Ret (Some def) ->
                         name (attrsOf def) <> Some x)
      by (intros n' def Hn'; apply Hbefore; now right).
    destruct d as [def|]; [|now apply IH].
    destruct (declaredAt_named _ _ Hd) as (nm & Hk & Hnm). rewrite Hk. simpl.
    apply IH; try assumption.
    rewrite get_spread_absent by exact Hacc. simpl.
    destruct (String.eqb nm x) eqn:E; [|reflexivity].
    apply String.eqb_eq in E. subst nm.
    exfalso. apply (Hbefore n def (or_introl eq_refl) Hd). exact Hnm.
Qed.
End LocalScope.

(** C7 as stated fails: in [let x = 1; let x = 'a'; x] both declarations end
    before the reference, and the local scope maps [x] to the first one (an
    int), not to the one closer to the reference (a string). *)
Lemma later_declaration_does_not_shadow :
  ~ (forall rec st target pos ptrs limit before d1 between d2 after def1 def2 x scope,
       getPointers rec st target = Ret ptrs ->
       Rec.has ptrs x = false ->
       scanLimit st target pos = Ret limit ->
       Syntax.entered limit (tree st) [] = before ++ d1 :: between ++ d2 :: after ->
       declaredAt rec st limit d1 = Ret (Some def1) ->
       name (attrsOf def1) = Some x ->
       declaredAt rec st limit d2 = Ret (Some def2) ->
       name (attrsOf def2) = Some x ->
       getLocalScope rec st target pos = Ret scope ->
       Rec.get scope x = Some def2).
Proof.
  intros H.
  specialize (H (getDefinition 1 Sample.shadow) Sample.shadow [2] None [] 24
                [[]] [0] [[0; 0]; [1; 0]; [2; 0]; [3; 0]] [1]
                [[0; 1]; [1; 1]; [2; 1]; [3; 1]; [2]]
                (withName Sample.int "x") (withName Sample.str "x") "x"
                [("x", withName Sample.int "x")]).
  assert (E : Rec.get [("x", withName Sample.int "x")] "x"
              = Some (withName Sample.str "x"))
    by (apply H; reflexivity).
  discriminate E.
Qed.

(** C7 (amended). When two well-formed declarations of the same name both end
    strictly before the position, [getLocalScope] maps the name to the one
    the scan meets first, the earlier declaration; the later one does not
    shadow it (and a binding of the implicit-parameter scope would precede
    both). *)
Theorem first_declaration_wins
    rec st target pos ptrs limit before d1 between d2 after def1 def2 x :
  getPointers rec st target = Ret ptrs ->
  Rec.has ptrs x = false ->
  scanLimit st target pos = Ret limit ->
  Syntax.entered limit (tree st) [] = before ++ d1 :: between ++ d2 :: after ->
  (forall n, In n (Syntax.entered limit (tree st) []) ->
             exists d, declaredAt rec st limit n = Ret d) ->
  (forall n def, In n before ->
                 declaredAt rec st limit n = Ret (Some def) ->
                 name (attrsOf def) <> Some x) ->
  declaredAt rec st limit d1 = Ret (Some def1) ->
  name (attrsOf def1) = Some x ->
  declaredAt rec st limit d2 = Ret (Some def2) ->
  name (attrsOf def2) = Some x ->
  exists scope,
    getLocalScope rec st target pos = Ret scope
    /\ Rec.get scope x = Some def1.
Proof.
  intros Hp Hx Hl He Hall Hbefore Hd1 Hn1 Hd2 Hn2.
  unfold getLocalScope. rewrite Hp, Hl. simpl. rewrite He in *.
  apply declare_first; try assumption.
  unfold Rec.has in Hx. destruct (Rec.get ptrs x); [discriminate | reflexivity].
Qed.

Lemma first_declaration_wins_witness :
  exists scope,
    getLocalScope (getDefinition 1 Sample.shadow) Sample.shadow [2] None = Ret scope
    /\ Rec.get scope "x" = Some (withName Sample.int "x").
Proof.
  apply (first_declaration_wins (getDefinition 1 Sample.shadow) Sample.shadow
           [2] None [] 24
           [[]] [0] [[0; 0]; [1; 0]; [2; 0]; [3; 0]] [1]
           [[0; 1]; [1; 1]; [2; 1]; [3; 1]; [2]]
           (withName Sample.int "x") (withName Sample.str "x") "x");
    try reflexivity.
  - intros n Hn. simpl in Hn.
    repeat (destruct Hn as [<-|Hn]; [eexists; reflexivity|]). destruct Hn.
  - intros n def [<-|[]]. discriminate.
Defined.

(** ** C5: a pipe into filter against the direct call *)

Lemma descend_app t p : forall q,
  Syntax.descend t (p ++ q)
  = match Syntax.descend t p with
    | Some t' => Syntax.descend t' q
    | None => None
    end.
Proof.
  revert t. induction p as [|i p IH]; intros t q; simpl; [reflexivity|].
  destruct (nth_error (Syntax.children t) i); [apply IH | reflexivity].
Qed.

Lemma matching_spec g cs : forall k i,
  In i (Syntax.matching g cs k) ->
  k <= i /\ exists c, nth_error cs (i - k) = Some c.
Proof.
  induction cs as [|c cs IH]; intros k i; simpl; [tauto|].
  assert (Hrest : In i (Syntax.matching g cs (S k)) ->
                  k <= i /\ exists c', nth_error (c :: cs) (i - k) = Some c').
  { intros H. destruct (IH _ _ H) as (Hle & c' & Hc'). split; [lia|].
    exists c'. replace (i - k) with (S (i - S k)) by lia. exact Hc'. }
  destruct (Syntax.is_ (Syntax.type c) g); [|exact Hrest].
  intros [<-|H]; [|auto]. split; [lia|]. exists c. now rewrite Nat.sub_diag.
Qed.

Lemma matching_increasing g cs : forall k i l,
  Syntax.matching g cs k = i :: l -> forall j, In j l -> i < j.
Proof.
  induction cs as [|c cs IH]; intros k i l; simpl; [discriminate|].
  destruct (Syntax.is_ (Syntax.type c) g).
  - intros [= <- <-] j Hj. apply matching_spec in Hj. lia.
  - apply IH.
Qed.

Lemma getChild_at root n g c :
  Syntax.getChild root n g = Some c -> exists t, Syntax.at_ root c = Some t.
Proof.
  unfold Syntax.getChild, Syntax.getChildren, Syntax.at_.
  destruct (Syntax.descend root (rev n)) as [t|] eqn:E; [|discriminate].
  destruct (Syntax.matching g (Syntax.children t) 0) as [|i l] eqn:M; [discriminate|].
  simpl. intros [= <-].
  assert (Hi : In i (Syntax.matching g (Syntax.children t) 0))
    by (rewrite M; now left).
  destruct (matching_spec _ _ _ _ Hi) as (_ & ct & Hct).
  rewrite Nat.sub_0_r in Hct.
  simpl. rewrite descend_app, E. simpl. rewrite Hct. eauto.
Qed.

Lemma getChildren_pair root p g a c :
  Syntax.getChildren root p g = [a; c] ->
  Syntax.getChild root p g = Some a
  /\ Syntax.parent c = Some p
  /\ exists s, Syntax.prevSibling c = Some s.
Proof.
  unfold Syntax.getChild. intros H. rewrite H. split; [reflexivity|].
  unfold Syntax.getChildren in H.
  destruct (Syntax.at_ root p) as [t|]; [|discriminate].
  destruct (Syntax.matching g (Syntax.children t) 0) as [|i [|j l]] eqn:M;
    try discriminate.
  simpl in H. injection H as <- <- Hl.
  assert (i < j) by (eapply matching_increasing; [exact M | now left]).
  split; [reflexivity|]. destruct j; [lia|]. simpl. eauto.
Qed.

Section Calls.
Variable fuel : nat.
Variable st : EditorState.

Lemma comparison_is_bool q :
  isComparison st q -> getDefinition (S fuel) st (Some q) = Ret (scalar Kind.Bool).
Proof.
  intros (Hq & o & Ho & Hop).
  destruct (nameIs_at _ _ _ Hq) as (t & Ht & Hnm).
  destruct (nameIs_at _ _ _ Hop) as (ot & Hot & Honm).
  simpl. unfold definition. rewrite Ht, Hnm. cbn -[binary].
  unfold binary. rewrite Ho. unfold view. rewrite Hot. cbn [bind].
  rewrite Honm. reflexivity.
Qed.

Lemma builtin_filter_reference f ft :
  Syntax.at_ (tree st) f = Some ft ->
  Syntax.name (Syntax.type ft) = Nodes.VarName ->
  text st ft = "filter" ->
  Rec.get (variables (scope st)) "filter" = Some BuiltIn.filter ->
  getDefinition (S fuel) st (Some f) = Ret BuiltIn.filter.
Proof.
  intros Hf Hn Ht Hs. simpl. unfold definition. rewrite Hf, Hn.
  cbn -[getLocalScope text]. rewrite Ht. unfold Rec.has, lookup. rewrite Hs.
  reflexivity.
Qed.

Lemma filter_signature arr pred :
  type arr = Ret Kind.Slice ->
  type (item arr) = Ret (Kind.Scalar Kind.Int) ->
  type pred = Ret (Kind.Scalar Kind.Bool) ->
  exists t,
    resolveFuncGenerics BuiltIn.filter [arr; pred] "filter" = Ret t
    /\ type t = Ret Kind.Func
    /\ returns t = [plain (SSlice (item arr))].
Proof.
  intros Ha Hi Hp.
  destruct (@type_slice _ Ha) as (i & a & m & ->). simpl in Hi.
  destruct (@type_scalar _ _ Hi) as (ia & im & ->).
  destruct (@type_scalar _ _ Hp) as (pa & pm & ->).
  eexists. split; [reflexivity|]. split; [reflexivity|].
  cbn. unfold mergeAttrs; simpl. rewrite !orElse_None. destruct ia; reflexivity.
Qed.

Lemma filter_call_type c own arr pred :
  isFilterCall st c own ->
  mapM (getDefinition (S fuel) st) (effectiveArgs st c own) = Ret [arr; pred] ->
  type arr = Ret Kind.Slice ->
  type (item arr) = Ret (Kind.Scalar Kind.Int) ->
  type pred = Ret (Kind.Scalar Kind.Bool) ->
  getDefinition (S (S fuel)) st (Some c) = Ret (plain (SSlice (item arr))).
Proof.
  intros (Hc & (f & ft & Hf & Hft & Hfn & Hftxt) & (a & Ha & Hown) & Hs)
         Hargs Tarr Titem Tpred.
  destruct (nameIs_at _ _ _ Hc) as (t & Ht & Hnm).
  destruct (getChild_at _ _ _ _ Ha) as (at_ & Hat).
  destruct (filter_signature arr pred Tarr Titem Tpred) as (sig & Hsig & Tsig & Hret).
  pose proof (builtin_filter_reference f ft Hft Hfn Hftxt Hs) as Hcallee.
  change (getDefinition (S (S fuel)) st (Some c))
    with (definition (S fuel) (getDefinition (S fuel) st) st c).
  unfold definition. rewrite Ht, Hnm. cbn -[call getDefinition].
  unfold call. rewrite Hf, Hcallee. cbn [bind type BuiltIn.filter BuiltIn.test named kindOfShape].
  rewrite kind_eqb_refl. cbn [negb].
  rewrite Ha. unfold view at 1. rewrite Hat. cbn [bind].
  rewrite Hown. fold (effectiveArgs st c own). rewrite Hargs. cbn [bind].
  unfold view. rewrite Hft. cbn [bind]. rewrite Hftxt.
  rewrite Hsig. cbn [bind]. rewrite Tsig. cbn [bind]. rewrite Hret. reflexivity.
Qed.
End Calls.

Lemma pipe_tail fuel st p a c :
  nameIs st p Nodes.PipeExpr = true ->
  Syntax.getChildren (tree st) p Groups.Expr = [a; c] ->
  getDefinition (S fuel) st (Some p) = getDefinition fuel st (Some c).
Proof.
  intros Hp Hcs.
  destruct (nameIs_at _ _ _ Hp) as (t & Ht & Hnm).
  simpl. unfold definition. rewrite Ht, Hnm. cbn -[getDefinition].
  rewrite Hcs. reflexivity.
Qed.

Lemma pipe_feeds_call st p a c own :
  nameIs st p Nodes.PipeExpr = true ->
  Syntax.getChildren (tree st) p Groups.Expr = [a; c] ->
  effectiveArgs st c own = Some a :: List.map Some own.
Proof.
  intros Hp Hcs.
  destruct (getChildren_pair _ _ _ _ _ Hcs) as (Hfirst & Hpar & s & Hprev).
  destruct (nameIs_at _ _ _ Hp) as (t & Ht & Hnm).
  unfold effectiveArgs, pipeFedCall. rewrite Hpar, Hprev, Ht.
  unfold Syntax.is_. rewrite Hnm. simpl. now rewrite Hfirst.
Qed.

(** C5. For an expression [arr] of type slice<int> (resolving, in the pipe
    and in the argument list, to definitions with the same item), the pipe
    [arr | filter(# > 2)] and the direct call [filter(arr, # > 2)] resolve to
    the same definition, slice<int>: the pipe source is resolved as
    argument 0 of the call on its right, and the pipe has the type of that
    call. *)
Theorem pipe_filter_equivalence fuel stP p a c q stD d a' q' arr arr' :
  nameIs stP p Nodes.PipeExpr = true ->
  Syntax.getChildren (tree stP) p Groups.Expr = [a; c] ->
  isFilterCall stP c [q] ->
  isComparison stP q ->
  isFilterCall stD d [a'; q'] ->
  isComparison stD q' ->
  pipeFedCall stD d = false ->
  getDefinition (S fuel) stP (Some a) = Ret arr ->
  getDefinition (S fuel) stD (Some a') = Ret arr' ->
  type arr = Ret Kind.Slice ->
  type arr' = Ret Kind.Slice ->
  type (item arr) = Ret (Kind.Scalar Kind.Int) ->
  item arr' = item arr ->
  getDefinition (S (S (S fuel))) stP (Some p)
  = getDefinition (S (S fuel)) stD (Some d)
  /\ getDefinition (S (S fuel)) stD (Some d) = Ret (plain (SSlice (item arr))).
Proof.
  intros Hp Hcs HcP HqP HcD HqD Hdirect HaP HaD Tarr Tarr' Titem Hitem.
  assert (HD : getDefinition (S (S fuel)) stD (Some d)
               = Ret (plain (SSlice (item arr)))).
  { rewrite <- Hitem.
    apply (filter_call_type fuel stD d [a'; q'] arr' (scalar Kind.Bool));
      try assumption; try reflexivity; [|now rewrite Hitem].
    unfold effectiveArgs. rewrite Hdirect.
    cbn [List.map mapM]. rewrite HaD, (comparison_is_bool fuel stD q' HqD).
    reflexivity. }
  split; [|exact HD].
  rewrite HD, (pipe_tail _ _ _ _ _ Hp Hcs).
  apply (filter_call_type fuel stP c [q] arr (scalar Kind.Bool));
    try assumption; try reflexivity.
  rewrite (pipe_feeds_call stP p a c [q] Hp Hcs).
  cbn [List.map mapM]. rewrite HaP, (comparison_is_bool fuel stP q HqP).
  reflexivity.
Qed.

Lemma pipe_filter_equivalence_witness :
  getDefinition 4 Sample.piped (Some [0]) = getDefinition 3 Sample.direct (Some [0])
  /\ getDefinition 3 Sample.direct (Some [0]) = Ret Sample.sliceInt.
Proof.
  apply (pipe_filter_equivalence 1 Sample.piped [0] [0; 0] [1; 0] [1; 1; 1; 0]
           Sample.direct [0] [1; 1; 0] [3; 1; 0]
           (withName Sample.sliceInt "arr") (withName Sample.sliceInt "arr"));
    try reflexivity.
  - repeat split; try reflexivity.
    + exists [0; 1; 0]. eexists. repeat split; reflexivity.
    + exists [1; 1; 0]. split; reflexivity.
  - split; [reflexivity|]. exists [1; 1; 1; 1; 0]. split; reflexivity.
  - repeat split; try reflexivity.
    + exists [0; 0]. eexists. repeat split; reflexivity.
    + exists [1; 0]. split; reflexivity.
  - split; [reflexivity|]. exists [1; 3; 1; 0]. split; reflexivity.
Defined.

(** ** Records: further facts *)



Lemma spread_nil_r (V : Type) (a : Rec.t V) : Rec.spread a [] = a.
Proof. reflexivity. Qed.

Lemma In_set (V : Type) (r : Rec.t V) k v p :
  In p (Rec.set r k v) -> p = (k, v) \/ In p r.
Proof.
  induction r as [|[k0 v0] r IH]; simpl.
  - intros [<-|[]]. now left.
  - destruct (String.eqb k0 k); simpl.
    + intros [<-|H]; auto.
    + intros [<-|H]; auto. destruct (IH H); auto.
Qed.

Lemma In_spread (V : Type) (b : Rec.t V) : forall a p,
  In p (Rec.spread a b) -> In p a \/ In p b.
Proof.
  unfold Rec.spread.
  induction b as [|[k v] b IH]; intros a p H; simpl in *; [now left|].
  destruct (IH _ _ H) as [H'|H']; [|now auto].
  destruct (In_set _ _ _ _ _ H') as [->|H'']; auto.
Qed.

Lemma get_In (V : Type) (r : Rec.t V) k v :
  Rec.get r k = Some v -> In (k, v) r.
Proof.
  induction r as [|[k0 v0] r IH]; simpl; [discriminate|].
  destruct (String.eqb k0 k) eqn:E; [|now auto].
  apply String.eqb_eq in E. intros [= <-]. subst. now left.
Qed.

Lemma In_get (V : Type) (r : Rec.t V) k v :
  NoDup (Rec.keys r) -> In (k, v) r -> Rec.get r k = Some v.
Proof.
  induction r as [|[k0 v0] r IH]; simpl; [tauto|].
  intros Hnd [E|H].
  - injection E as -> ->. now rewrite String.eqb_refl.
  - inversion Hnd as [|? ? Hin Hnd']; subst.
    destruct (String.eqb k0 k) eqn:E; [|now apply IH].
    apply String.eqb_eq in E; subst k0. exfalso. apply Hin.
    change k with (fst (k, v)). now apply in_map.
Qed.

(** ** Further properties of the generic resolver *)

Lemma patch_each_mapM m l :
  (fix each (l : list Def) : Outcome (list Def) :=
     match l with
     | [] => Ret []
     | a :: l' =>
         let* a' := patchGenerics m a in
         let* r := each l' in Ret (a' :: r)
     end) l = mapM (patchGenerics m) l.
Proof. induction l as [|a l IH]; simpl; [reflexivity|]. now rewrite IH. Qed.

Lemma mapM_length (A B : Type) (f : A -> Outcome B) l : forall l',
  mapM f l = Ret l' -> length l' = length l.
Proof.
  induction l as [|a l IH]; intros l'; simpl.
  - now intros [= <-].
  - destruct (f a) as [b| |]; simpl; try discriminate.
    destruct (mapM f l) as [bs| |]; simpl; try discriminate.
    intros [= <-]. simpl. now rewrite (IH bs).
Qed.

Lemma mapM_returns (A B : Type) (f : A -> Outcome B) l :
  (forall a, In a l -> exists b, f a = Ret b) -> exists l', mapM f l = Ret l'.
Proof.
  induction l as [|a l IH]; intros H; simpl; [eauto|].
  destruct (H a (or_introl eq_refl)) as (b & ->). simpl.
  destruct IH as (bs & ->); [intros x Hx; apply H; now right|]. simpl. eauto.
Qed.

Lemma patchGenerics_func m g fargs frets a me t :
  patchGenerics m (Obj (SFunc g fargs frets) a me) = Ret t ->
  exists fargs' frets',
    t = Obj (SFunc None fargs' frets') a me
    /\ length fargs' = length fargs /\ length frets' = length frets.
Proof.
  cbn [patchGenerics]. rewrite !patch_each_mapM.
  destruct (mapM (patchGenerics m) fargs) as [fargs'| |] eqn:Ea; simpl; try discriminate.
  destruct (mapM (patchGenerics m) frets) as [frets'| |] eqn:Er; simpl; try discriminate.
  intros [= <-]. exists fargs', frets'.
  repeat split; eapply mapM_length; eassumption.
Qed.

Lemma resolveFuncGenerics_arity f actuals name t :
  type f = Ret Kind.Func ->
  resolveFuncGenerics f actuals name = Ret t ->
  type t = Ret Kind.Func
  /\ length (args t) = length (args f)
  /\ length (returns t) = length (returns f)
  /\ (genericsOf f <> None -> genericsOf t = None).
Proof.
  intros Hf. destruct (type_Ret _ _ Hf) as (sh & a & me & -> & Hk).
  destruct sh; try discriminate. destruct generics as [fg|]; unfold resolveFuncGenerics.
  - destruct (resolvedGenerics fg args0 actuals name) as [m| |];
      cbn [bind]; try discriminate.
    intros H.
    apply (patchGenerics_func m (Some fg) args0 returns0 a me t) in H
      as (fa & fr & -> & Ha & Hr).
    simpl. repeat split; auto.
  - intros [= <-]. simpl. repeat split; congruence.
Qed.

(** X1. What [resolveFuncGenerics] returns for a function is a
    function with as many parameters and returns as the declared one, and
    without the [generics] table when the declared one had it. *)
Theorem resolveFuncGenerics_keeps_arity f actuals name t :
  type f = Ret Kind.Func ->
  resolveFuncGenerics f actuals name = Ret t ->
  type t = Ret Kind.Func
  /\ length (args t) = length (args f)
  /\ length (returns t) = length (returns f)
  /\ (genericsOf f <> None -> genericsOf t = None).
Proof. apply resolveFuncGenerics_arity. Qed.

Lemma resolveFuncGenerics_keeps_arity_witness :
  exists t,
    resolveFuncGenerics BuiltIn.reduce [Sample.sliceInt] "reduce" = Ret t
    /\ type t = Ret Kind.Func
    /\ length (args t) = 3 /\ length (returns t) = 1
    /\ genericsOf t = None.
Proof.
  eexists. split; [reflexivity|].
  destruct (resolveFuncGenerics_keeps_arity BuiltIn.reduce [Sample.sliceInt]
              "reduce" _ eq_refl eq_refl) as (H1 & H2 & H3 & H4).
  repeat split; assumption || (apply H4; discriminate).
Defined.

Lemma patchGenerics_returns m : forall t,
  noNull t = true -> exists r, patchGenerics m t = Ret r.
Proof.
  fix IH 1. intros [|sh a me]; [discriminate|]. intros H.
  destruct sh; cbn [noNull] in H; cbn [patchGenerics]; eauto;
    try (destruct (IH _ H) as (r & ->); simpl; eauto; fail).
  - apply andb_true_iff in H as [Hk Hv].
    destruct (IH _ Hk) as (k' & ->). destruct (IH _ Hv) as (v' & ->). simpl. eauto.
  - apply andb_true_iff in H as [Ha Hr]. rewrite !patch_each_mapM.
    assert (Each : forall l, forallb noNull l = true ->
                             exists l', mapM (patchGenerics m) l = Ret l').
    { induction l as [|x l IHl]; simpl; [eauto|]. intros Hl.
      apply andb_true_iff in Hl as [Hx Hl].
      destruct (IH _ Hx) as (x' & ->). destruct (IHl Hl) as (l' & ->). simpl. eauto. }
    destruct (Each _ Ha) as (a' & ->). destruct (Each _ Hr) as (r' & ->).
    simpl. eauto.
  - destruct (lookup m (genericKey generic)) as [|[] ? ?]; eauto.
Qed.

Lemma forallb_noNull_objects l :
  forallb noNull l = true -> Forall (fun p => p <> Null) l.
Proof.
  rewrite forallb_forall, Forall_forall. intros H p Hp ->.
  specialize (H _ Hp). discriminate.
Qed.

(** X2. On a generic signature without null components,
    [resolveFuncGenerics] returns for every argument list, nulls included,
    as soon as the function declares a parameter or the list is empty; with
    no declared parameter and at least one argument it raises. *)
Theorem resolveFuncGenerics_raises_only_without_parameters
    fg fargs frets a me actuals name :
  noNull (Obj (SFunc (Some fg) fargs frets) a me) = true ->
  (fargs <> [] \/ actuals = [] ->
   exists t, resolveFuncGenerics (Obj (SFunc (Some fg) fargs frets) a me)
               actuals name = Ret t)
  /\ (fargs = [] -> actuals <> [] ->
      resolveFuncGenerics (Obj (SFunc (Some fg) fargs frets) a me)
        actuals name = Throws).
Proof.
  intros Hn. split.
  - intros Hcase. unfold resolveFuncGenerics, resolvedGenerics.
    assert (Hb : exists merged, bindGenerics fargs name actuals 0 [] = Ret merged).
    { destruct Hcase as [Hne| ->]; [|simpl; eauto].
      apply bindGenerics_returns; [exact Hne|].
      apply forallb_noNull_objects.
      cbn [noNull] in Hn. now apply andb_true_iff in Hn as [Hn _]. }
    destruct Hb as (merged & ->). cbn [bind].
    apply patchGenerics_returns, Hn.
  - intros -> Hact. destruct actuals as [|x xs]; [congruence|].
    unfold resolveFuncGenerics, resolvedGenerics. cbn [bindGenerics].
    now rewrite expectedAt_no_parameter.
Qed.

Lemma resolveFuncGenerics_raises_only_without_parameters_witness :
  (exists t, resolveFuncGenerics BuiltIn.map [Null; Null; Null] "map" = Ret t)
  /\ resolveFuncGenerics Sample.thunk [Null] "make" = Throws.
Proof.
  split.
  - apply (resolveFuncGenerics_raises_only_without_parameters
             BuiltIn.TR_any (args BuiltIn.map) (returns BuiltIn.map)
             (attrsOf BuiltIn.map) None [Null; Null; Null] "map" eq_refl).
    left. discriminate.
  - apply (resolveFuncGenerics_raises_only_without_parameters
             [("T", [scalar Kind.Any])] [] (returns Sample.thunk)
             (attrsOf Sample.thunk) None [Null] "make" eq_refl);
      [reflexivity | discriminate].
Defined.

(** The argument loop stops at the first surplus argument. *)
Lemma bindGenerics_surplus fargs name extra rest :
  forall i g,
    fargs <> [] ->
    isVariadic (last fargs Null) = Ret false ->
    i + length rest = length fargs ->
    bindGenerics fargs name (rest ++ extra) i g = bindGenerics fargs name rest i g.
Proof.
  induction rest as [|x rest IH]; intros i g Hne Hv Hlen; simpl in *.
  - destruct extra as [|x xs]; [reflexivity|]. cbn [bindGenerics].
    assert (E : expectedAt fargs name i = Ret None).
    { unfold expectedAt. rewrite Nat.add_0_r in Hlen. subst i.
      rewrite Nat.ltb_irrefl.
      assert (Hl : length fargs <> 0) by (destruct fargs; simpl; congruence).
      assert (Hz : nthZ fargs (Z.of_nat (length fargs) - 1) = last fargs Null).
      { unfold nthZ. destruct (Z.ltb_spec (Z.of_nat (length fargs) - 1) 0); [lia|].
        replace (Z.to_nat (Z.of_nat (length fargs) - 1)) with (length fargs - 1) by lia.
        destruct fargs as [|p ps] using rev_ind; [congruence|].
        rewrite last_last, length_app. simpl.
        rewrite app_nth2 by lia.
        replace (length ps + 1 - 1 - length ps) with 0 by lia. reflexivity. }
      rewrite Hz, Hv. cbn [bind negb].
      destruct (Z.eqb_spec (Z.of_nat (length fargs) - 1) (Z.of_nat (length fargs)));
        [lia | reflexivity]. }
    now rewrite E.
  - destruct (expectedAt fargs name i) as [[e|]| |]; cbn [bind]; try reflexivity.
    apply IH; try assumption. lia.
Qed.

(** X3. When the last declared parameter is not variadic,
    the arguments beyond the declared parameters do not take part in the
    resolution: the result is that of the call without them. *)
Theorem resolveFuncGenerics_ignores_surplus fg fargs frets a me actuals extra name :
  fargs <> [] ->
  isVariadic (last fargs Null) = Ret false ->
  length actuals = length fargs ->
  resolveFuncGenerics (Obj (SFunc (Some fg) fargs frets) a me)
    (actuals ++ extra) name
  = resolveFuncGenerics (Obj (SFunc (Some fg) fargs frets) a me) actuals name.
Proof.
  intros Hne Hv Hlen. unfold resolveFuncGenerics, resolvedGenerics.
  now rewrite bindGenerics_surplus.
Qed.

Lemma resolveFuncGenerics_ignores_surplus_witness :
  resolveFuncGenerics BuiltIn.filter
    ([Sample.sliceInt; Sample.bool] ++ [Sample.str; Sample.nil]) "filter"
  = resolveFuncGenerics BuiltIn.filter [Sample.sliceInt; Sample.bool] "filter".
Proof.
  apply (resolveFuncGenerics_ignores_surplus BuiltIn.T_any (args BuiltIn.filter)
           (returns BuiltIn.filter) (attrsOf BuiltIn.filter) None
           [Sample.sliceInt; Sample.bool] [Sample.str; Sample.nil] "filter").
  - discriminate.
  - reflexivity.
  - reflexivity.
Defined.









Lemma collectEach_nothing collect others l :
  (forall x y, In x l -> collect x y = []) ->
  forall idx acc, collectEach collect others l idx acc = acc.
Proof.
  induction l as [|x l IH]; intros H idx acc; simpl; [reflexivity|].
  rewrite (H x _ (or_introl eq_refl)), spread_nil_r.
  apply IH. intros x' y Hx'. apply H. now right.
Qed.

(** X5. A declared type in which no generic placeholder
    occurs binds nothing, whatever the argument it is matched against. *)
Theorem collectGenerics_concrete : forall t a,
  mentionsGeneric t = false -> collectGenerics t a = [].
Proof.
  fix IH 1. intros [|st ta tm] [|sa aa am] H; try reflexivity.
  destruct st; cbn [mentionsGeneric] in H; cbn [collectGenerics];
    try reflexivity; try discriminate;
    try (destruct (Kind.eqb _ _); [|reflexivity]).
  - apply IH, H.
  - apply IH, H.
  - apply orb_false_iff in H as [Hk Hv]. now rewrite (IH _ _ Hk), (IH _ _ Hv).
  - apply orb_false_iff in H as [Ha Hr].
    assert (Each : forall l, existsb mentionsGeneric l = false ->
                             forall x y, In x l -> collectGenerics x y = []).
    { induction l as [|x0 l IHl]; intros Hl x y Hx; [destruct Hx|].
      simpl in Hl. apply orb_false_iff in Hl as [Hx0 Hl].
      destruct Hx as [<-|Hx]; [apply IH, Hx0 | now apply IHl]. }
    rewrite !collectEach_nothing by (apply Each; assumption). reflexivity.
  - apply IH, H.
  - apply IH, H.
Qed.

Lemma collectGenerics_concrete_witness :
  collectGenerics (plain (SMap Sample.str (plain (SSlice Sample.int))))
                  (plain (SMap Sample.str (plain (SSlice Sample.bool)))) = [].
Proof.
  apply (collectGenerics_concrete
           (plain (SMap Sample.str (plain (SSlice Sample.int))))
           (plain (SMap Sample.str (plain (SSlice Sample.bool))))).
  reflexivity.
Defined.

(** ** Resolved signatures carry no placeholder *)













(** ** Further properties of the equality *)

Lemma every_self full l :
  forall pre,
    full = pre ++ l ->
    (forall x, In x l -> isEquals x x = true) ->
    (fix every (l0 : list Def) (idx : nat) : bool :=
       match l0 with
       | [] => true
       | arg :: l' => isEquals arg (nth idx full Null) && every l' (S idx)
       end) l (length pre) = true.
Proof.
  induction l as [|x l IH]; intros pre Hfull H; [reflexivity|].
  assert (Hn : nth (length pre) full Null = x).
  { rewrite Hfull, app_nth2, Nat.sub_diag by lia. reflexivity. }
  rewrite Hn, (H x (or_introl eq_refl)). cbn [andb].
  specialize (IH (pre ++ [x])). rewrite length_app, Nat.add_1_r in IH.
  apply IH.
  - now rewrite <- app_assoc.
  - intros y Hy. apply H. now right.
Qed.

(** X7. Every definition whose compared components are not null
    equals itself. *)
Theorem isEquals_refl : forall t, comparedNonNull t = true -> isEquals t t = true.
Proof.
  fix IH 1. intros [|sh a me] H; [discriminate|].
  cbn [isEquals]. rewrite kind_eqb_refl. cbn [negb].
  destruct sh; cbn [comparedNonNull] in H; try reflexivity.
  - apply andb_true_iff in H as [Hk Hv]. cbn [key value].
    now rewrite (IH _ Hk), (IH _ Hv).
  - apply andb_true_iff in H as [Ha Hr]. cbn [args returns].
    rewrite !Nat.eqb_refl. cbn [andb].
    assert (Each : forall l, forallb comparedNonNull l = true ->
                             forall x, In x l -> isEquals x x = true).
    { induction l as [|x0 l IHl]; intros Hl x Hx; [destruct Hx|].
      simpl in Hl. apply andb_true_iff in Hl as [Hx0 Hl].
      destruct Hx as [<-|Hx]; [apply IH, Hx0 | now apply IHl]. }
    apply andb_true_intro; split.
    + exact (every_self args0 args0 [] eq_refl (Each _ Ha)).
    + exact (every_self returns0 returns0 [] eq_refl (Each _ Hr)).
  - cbn [to]. apply IH, H.
  - cbn [item]. apply IH, H.
  - cbn [typeName]. apply String.eqb_refl.
Qed.

Lemma isEquals_refl_witness : isEquals BuiltIn.reduce BuiltIn.reduce = true.
Proof. apply (isEquals_refl BuiltIn.reduce). reflexivity. Defined.

(** ** Named types and members: further properties *)

(** X8. The base type is fully resolved: it is not the name of a registered
    type, so resolving it once more, in one step or by the loop, gives it
    back. *)
Theorem getBaseType_resolved fuel s : forall t r,
  getBaseType fuel s t = Ret r ->
  resolveRef s r = Ret r /\ forall k, getBaseType (S k) s r = Ret r.
Proof.
  induction fuel as [|fuel IH]; intros t r H; simpl in H; [discriminate|].
  destruct t as [|sh a me]; [discriminate|].
  destruct sh as [k|i|n i|k v|g fa fr|fields|p|i|i|g|n|];
    try (injection H as <-; split; [|intros k']; reflexivity).
  destruct (Rec.has (types s) n) eqn:E; [now apply IH in H|].
  injection H as <-. split; [|intros k]; simpl; now rewrite E.
Qed.

Lemma getBaseType_resolved_witness :
  resolveRef Sample.embedding Sample.structB = Ret Sample.structB
  /\ forall k, getBaseType (S k) Sample.embedding Sample.structB = Ret Sample.structB.
Proof.
  apply (getBaseType_resolved 2 Sample.embedding (plain (SDefined "B")) Sample.structB).
  reflexivity.
Defined.

Section Listing.
Variable s : Scope.
Variable name : string.



End Listing.



(** ** Looking a member up against listing the members *)

Section Lookup.
Variable s : Scope.
Variable name : string.

Lemma promoteFirst_returns_with fields first all fs :
  (forall r ms, all r = Ret ms -> exists m, first r = Ret m) ->
  forall acc ms,
    promoteAll s fields all fs acc = Ret ms ->
    exists m, promoteFirst s fields first fs = Ret m.
Proof.
  intros Hrec. induction fs as [|f fs IH]; intros acc ms H; simpl in H |- *;
    [eauto|].
  destruct (isEmbedded (lookup fields f)) as [[|]| |]; simpl in H |- *;
    try discriminate; [|exact (IH _ _ H)].
  destruct (resolveRef s (lookup fields f)) as [r| |]; simpl in H |- *;
    try discriminate.
  destruct (all r) as [promoted| |] eqn:Ea; simpl in H; try discriminate.
  destruct (Hrec _ _ Ea) as (m & ->). simpl.
  destruct (isObject m); [eauto | exact (IH _ _ H)].
Qed.

Lemma getMember_returns_at fuel : forall src ms,
  getMembers fuel s src = Ret ms -> exists m, getMember fuel s src name = Ret m.
Proof.
  induction fuel as [|fuel IH]; intros src ms H; [discriminate|].
  destruct src as [|sh a me]; [discriminate|].
  cbn [getMember getMembers] in H |- *.
  destruct (match fieldsOf sh with
            | Some fields => Rec.get fields name
            | None => None
            end) as [field|]; [eauto|].
  destruct (match me with Some m => Rec.get m name | None => None end)
    as [method|]; [eauto|].
  destruct sh as [k|i|n i|k v|g fa fr|fields|p|i|i|g|n|]; eauto.
  - apply (promoteFirst_returns_with fields _ (getMembers fuel s) _
             (fun r ms0 => IH r ms0) _ _ H).
  - destruct (resolveRef s (Obj (SDefined n) a me)) as [r| |];
      simpl in H |- *; try discriminate.
    destruct (getMembers fuel s r) as [inherited| |] eqn:Ei; simpl in H;
      try discriminate.
    destruct (IH _ _ Ei) as (m & ->). simpl. destruct (isObject m); eauto.
Qed.
End Lookup.

(** X10. Looking a member up never costs more than listing the members:
    wherever [getMembers] returns for a type, without raising and within a
    given depth of recursion, [getMember] returns for that type and every
    name within the same depth. *)
Theorem getMember_returns_where_listing_does fuel s src name ms :
  getMembers fuel s src = Ret ms ->
  exists m, getMember fuel s src name = Ret m.
Proof. apply getMember_returns_at. Qed.

Lemma getMember_returns_where_listing_does_witness :
  exists m, getMember 2 Sample.embedding Fixture.wrapper "Y" = Ret m.
Proof.
  apply (getMember_returns_where_listing_does 2 Sample.embedding
           Fixture.wrapper "Y"
           [("B", Obj (SDefined "B") (mkAttrs (Some "B") None (Some true)) None);
            ("X", named "X" (SScalar Kind.Int))]).
  reflexivity.
Defined.

(** ** The predicative built-ins *)

(** X11. Every name [isPredicativeFunc] accepts is registered as a built-in
    function whose second parameter is itself a function, the predicate,
    and that predicate declares the implicit parameter [#]. *)
Theorem predicative_builtins_take_a_predicate name :
  isPredicativeFunc name = true ->
  exists d predicate,
    Rec.get BuiltIn.variables name = Some d
    /\ type d = Ret Kind.Func
    /\ nth_error (args d) 1 = Some predicate
    /\ type predicate = Ret Kind.Func
    /\ In BuiltIn.pointer (args predicate).
Proof.
  intros H. predicative_cases H;
    (do 2 eexists; do 4 (split; [reflexivity|]); cbn; auto).
Qed.

Lemma predicative_builtins_take_a_predicate_witness :
  exists d predicate,
    Rec.get BuiltIn.variables "sortBy" = Some d
    /\ type d = Ret Kind.Func
    /\ nth_error (args d) 1 = Some predicate
    /\ type predicate = Ret Kind.Func
    /\ In BuiltIn.pointer (args predicate).
Proof.
  apply (predicative_builtins_take_a_predicate "sortBy"). reflexivity.
Defined.

(** ** Implicit parameters and local declarations: further properties *)

Section PointerScope.
Variable rec : option SyntaxNode -> Outcome Def.
Variable st : EditorState.

Lemma getPointersFrom_outside cur : forall prev,
  findUp st Nodes.Arguments cur = None ->
  getPointersFrom rec st cur prev = Ret [].
Proof.
  induction cur as [|i p IH]; intros prev H; simpl in H |- *;
    destruct (nameIs st _ Nodes.Arguments); try discriminate; simpl;
    [reflexivity | now apply IH].
Qed.

Lemma NoDup_byName l : forall acc scope,
  byName l acc = Ret scope -> NoDup (Rec.keys acc) -> NoDup (Rec.keys scope).
Proof.
  induction l as [|a l IH]; intros acc scope H Hnd; simpl in H.
  - now injection H as <-.
  - destruct (nameKey a) as [k| |]; simpl in H; try discriminate.
    apply (IH _ _ H). now apply NoDup_set.
Qed.
End PointerScope.

(** X12. Outside every argument list there are no implicit parameters: when
    neither the node nor one of its ancestors is an [Arguments] node,
    [getPointers] returns the empty scope, whatever the definitions of the
    other nodes are. *)
Theorem getPointers_outside_arguments rec st node :
  findUp st Nodes.Arguments node = None ->
  getPointers rec st node = Ret [].
Proof. apply getPointersFrom_outside. Qed.

Lemma getPointers_outside_arguments_witness :
  getPointers (getDefinition 1 Sample.shadow) Sample.shadow [2] = Ret [].
Proof.
  apply (getPointers_outside_arguments (getDefinition 1 Sample.shadow)
           Sample.shadow [2]).
  reflexivity.
Defined.

Section ScopeOrigins.
Variable rec : option SyntaxNode -> Outcome Def.
Variable st : EditorState.

Lemma NoDup_getPredicateScope node scope :
  getPredicateScope rec st node = Ret scope -> NoDup (Rec.keys scope).
Proof.
  unfold getPredicateScope. intros H.
  repeat match type of H with
         | Ret _ = Ret _ => fail 1
         | context [bind ?c _] =>
             destruct c eqn:?; cbn [bind] in H; try discriminate H
         | context [match ?x with _ => _ end] =>
             destruct x eqn:?; try discriminate H
         end;
    injection H as <-;
    try (apply NoDup_spread || apply NoDup_set);
    solve [ apply NoDup_nil
          | eapply NoDup_byName; [eassumption | apply NoDup_nil] ].
Qed.

Lemma NoDup_getPointersFrom cur : forall prev scope,
  getPointersFrom rec st cur prev = Ret scope -> NoDup (Rec.keys scope).
Proof.
  induction cur as [|i p IH]; intros prev scope H; simpl in H;
    destruct (nameIs st _ Nodes.Arguments);
    try (destruct (getPredicateScope rec st prev) as [ps| |] eqn:Ep;
         simpl in H; try discriminate H;
         destruct (Rec.has ps Keywords.Pointer); simpl in H);
    simpl in H;
    try (injection H as <-);
    solve [ apply NoDup_nil
          | eapply NoDup_getPredicateScope; eassumption
          | eapply IH; eassumption ].
Qed.

Lemma declaredAt_ending limit n v :
  declaredAt rec st limit n = Ret (Some v) ->
  exists t,
    Syntax.at_ (tree st) n = Some t
    /\ Syntax.name (Syntax.type t) = Nodes.VarDecl
    /\ Syntax.to t < limit
    /\ toVarDeclaration rec st n = Ret (Some v).
Proof.
  unfold declaredAt, view.
  destruct (Syntax.at_ (tree st) n) as [t|]; cbn [bind]; [|discriminate].
  destruct (String.eqb _ Nodes.VarDecl) eqn:En; [|discriminate].
  destruct (Syntax.to t <? limit)%nat eqn:El; [|discriminate].
  cbn [andb]. intros H. exists t.
  apply String.eqb_eq in En. apply Nat.ltb_lt in El. auto.
Qed.

Lemma declare_origin limit x v nodes : forall acc scope,
  declare rec st limit nodes acc = Ret scope ->
  In (x, v) scope ->
  In (x, v) acc
  \/ exists n, In n nodes /\ declaredAt rec st limit n = Ret (Some v)
                /\ name (attrsOf v) = Some x.
Proof.
  induction nodes as [|n nodes IH]; intros acc scope H Hin; simpl in H.
  - injection H as <-. now left.
  - destruct (declaredAt rec st limit n) as [[def|]| |] eqn:Ed; simpl in H;
      try discriminate.
    + destruct (declaredAt_named _ _ _ _ _ Ed) as (nm & Hk & Hnm).
      rewrite Hk in H. simpl in H.
      destruct (IH _ _ H Hin) as [Hacc|(n' & Hn' & Hd' & Hx)].
      * destruct (In_spread _ _ _ _ Hacc) as [[E|[]]|Hacc']; [|now left].
        injection E as <- <-. right. exists n. simpl. auto.
      * right. exists n'. simpl. auto.
    + destruct (IH _ _ H Hin) as [Hacc|(n' & Hn' & Hd' & Hx)]; [now left|].
      right. exists n'. simpl. auto.
Qed.

Lemma getLocalScope_origin target pos scope x v :
  getLocalScope rec st target pos = Ret scope ->
  Rec.get scope x = Some v ->
  (exists ptrs, getPointers rec st target = Ret ptrs /\ Rec.get ptrs x = Some v)
  \/ (exists limit n t,
        scanLimit st target pos = Ret limit
        /\ Syntax.at_ (tree st) n = Some t
        /\ Syntax.name (Syntax.type t) = Nodes.VarDecl
        /\ Syntax.to t < limit
        /\ toVarDeclaration rec st n = Ret (Some v)
        /\ name (attrsOf v) = Some x).
Proof.
  unfold getLocalScope. intros H Hget.
  destruct (getPointers rec st target) as [ptrs| |] eqn:Ep; simpl in H;
    try discriminate.
  destruct (scanLimit st target pos) as [limit| |] eqn:El; simpl in H;
    try discriminate.
  destruct (declare_origin limit x v _ _ _ H (get_In _ _ _ _ Hget))
    as [Hin|(n & _ & Hd & Hx)].
  - left. exists ptrs. split; [reflexivity|].
    apply In_get; [|exact Hin].
    apply (NoDup_getPointersFrom _ _ _ Ep).
  - right. destruct (declaredAt_ending _ _ _ Hd) as (t & Ht & Hn & Hto & Hv).
    exists limit, n, t. auto 10.
Qed.
End ScopeOrigins.

(** X13. The local scope invents no binding: whatever it maps a name to is
    either the binding of that name in the implicit-parameter scope of the
    target, or the variable declared under that name by a [VarDecl] node that
    ends strictly before the scan limit. *)
Theorem getLocalScope_sound rec st target pos scope x v :
  getLocalScope rec st target pos = Ret scope ->
  Rec.get scope x = Some v ->
  (exists ptrs, getPointers rec st target = Ret ptrs /\ Rec.get ptrs x = Some v)
  \/ (exists limit n t,
        scanLimit st target pos = Ret limit
        /\ Syntax.at_ (tree st) n = Some t
        /\ Syntax.name (Syntax.type t) = Nodes.VarDecl
        /\ Syntax.to t < limit
        /\ toVarDeclaration rec st n = Ret (Some v)
        /\ name (attrsOf v) = Some x).
Proof. apply getLocalScope_origin. Qed.

Lemma getLocalScope_sound_witness :
  (exists ptrs,
      getPointers (getDefinition 1 Sample.shadow) Sample.shadow [2] = Ret ptrs
      /\ Rec.get ptrs "x" = Some (withName Sample.int "x"))
  \/ (exists limit n t,
        scanLimit Sample.shadow [2] None = Ret limit
        /\ Syntax.at_ (tree Sample.shadow) n = Some t
        /\ Syntax.name (Syntax.type t) = Nodes.VarDecl
        /\ Syntax.to t < limit
        /\ toVarDeclaration (getDefinition 1 Sample.shadow) Sample.shadow n
           = Ret (Some (withName Sample.int "x"))
        /\ name (attrsOf (withName Sample.int "x")) = Some "x").
Proof.
  apply (getLocalScope_sound (getDefinition 1 Sample.shadow) Sample.shadow
           [2] None [("x", withName Sample.int "x")] "x"
           (withName Sample.int "x")); reflexivity.
Defined.

(** ** The scope of a predicate *)

Section PredicateScope.
Variable rec : option SyntaxNode -> Outcome Def.
Variable st : EditorState.

Lemma getPredicateScope_site node call fname a0 a1 g dargs drets da dm arr :
  predicateSite st node call fname a0 a1 ->
  isPredicativeFunc fname = true ->
  lookup BuiltIn.variables fname = Obj (SFunc g dargs drets) da dm ->
  (length dargs <=? 1)%nat = false ->
  type (nth 1 dargs Null) = Ret Kind.Func ->
  rec (Some a0) = Ret arr ->
  getPredicateScope rec st node
  = let* func := resolveFuncGenerics (lookup BuiltIn.variables fname)
                   [arr; scalar Kind.Any] fname in
    scopeOfPredicate func 1.
Proof.
  intros ((p & Hp) & inner & argsNode & callee & ct & t & commas & Hi & Hc
          & Hcallee & Hct & Htxt & Hpipe & Ha & Hargs & Ht & Hclose & Harg
          & Hcomma & Hcommas & Hpos) Hpred Hdef Hlen Hkind Hrec.
  unfold getPredicateScope. rewrite Hp. unfold view at 1. rewrite Ht.
  cbn [bind]. rewrite Hclose, Hi, Hc, Hcallee. unfold view at 1.
  rewrite Hct. cbn [bind]. rewrite Htxt, Hpred. cbn [negb].
  rewrite Hdef, Hpipe, Ha, Hargs, Harg, Hcomma, Hcommas. cbn [bind orb].
  rewrite Hpos. cbn [Nat.add]. rewrite Hlen, Hkind. cbn [bind].
  rewrite kind_eqb_refl. cbn [negb app List.map mapiM Nat.eqb bind].
  rewrite Hrec. cbn [bind]. reflexivity.
Qed.
End PredicateScope.

Lemma pointer_scope_unnamed fname ish ia im aa am :
  isPredicativeFunc fname = true ->
  typed (Obj ish ia im) = true ->
  name ia = None ->
  exists g dargs drets da dm scope,
    lookup BuiltIn.variables fname = Obj (SFunc g dargs drets) da dm
    /\ (length dargs <=? 1)%nat = false
    /\ type (nth 1 dargs Null) = Ret Kind.Func
    /\ (let* func := resolveFuncGenerics (lookup BuiltIn.variables fname)
                       [Obj (SSlice (Obj ish ia im)) aa am; scalar Kind.Any]
                       fname in
        scopeOfPredicate func 1) = Ret scope
    /\ Rec.get scope Keywords.Pointer = Some (withName (Obj ish ia im) "#").
Proof.
  intros Hp Ht Hn. destruct ia as [n v e]. simpl in Hn. subst n.
  destruct ish; try discriminate Ht; clear Ht;
    predicative_cases Hp;
    (do 6 eexists;
     split; [reflexivity|]; split; [reflexivity|]; split; [reflexivity|];
     split; [reflexivity|];
     cbv -[orElse]; rewrite !orElse_None; reflexivity).
Qed.

Lemma pointer_scope_named fname ish ia im aa am n :
  isPredicativeFunc fname = true ->
  args (nth 1 (args (lookup BuiltIn.variables fname)) Null) = [BuiltIn.pointer] ->
  typed (Obj ish ia im) = true ->
  name ia = Some n ->
  n <> Keywords.Accumulator ->
  exists g dargs drets da dm,
    lookup BuiltIn.variables fname = Obj (SFunc g dargs drets) da dm
    /\ (length dargs <=? 1)%nat = false
    /\ type (nth 1 dargs Null) = Ret Kind.Func
    /\ (let* func := resolveFuncGenerics (lookup BuiltIn.variables fname)
                       [Obj (SSlice (Obj ish ia im)) aa am; scalar Kind.Any]
                       fname in
        scopeOfPredicate func 1) = Ret [(n, Obj ish ia im)].
Proof.
  intros Hp Hone Ht Hn Hacc. destruct ia as [n' v e]. simpl in Hn. subst n'.
  apply String.eqb_neq in Hacc. unfold Keywords.Accumulator in Hacc.
  enough (exists g dargs drets da dm,
    lookup BuiltIn.variables fname = Obj (SFunc g dargs drets) da dm
    /\ (length dargs <=? 1)%nat = false
    /\ type (nth 1 dargs Null) = Ret Kind.Func
    /\ (let* func := resolveFuncGenerics (lookup BuiltIn.variables fname)
                       [Obj (SSlice (Obj ish (mkAttrs (Some n) v e) im)) aa am;
                        scalar Kind.Any]
                       fname in
        scopeOfPredicate func 1)
       = Ret [(n, Obj ish (mkAttrs (Some n) (orElse v None) (orElse e None))
                      (orElse im None))])
    as G by (now rewrite !orElse_None in G).
  destruct ish; try discriminate Ht; clear Ht;
    predicative_cases Hp; try discriminate Hone;
    (do 5 eexists;
     split; [reflexivity|]; split; [reflexivity|]; split; [reflexivity|];
     match goal with
     | |- bind ?c _ = _ =>
         let r := eval vm_compute in c in
         replace c with r by (vm_compute; reflexivity)
     end;
     cbv -[String.eqb]; rewrite Hacc; reflexivity).
Qed.

Section ImplicitParameter.
Variable st : EditorState.

Lemma findUp_length nm c : forall found,
  findUp st nm c = Some found -> length found <= length c.
Proof.
  induction c as [|x c IH]; intros found; simpl.
  - destruct (nameIs st [] nm); [|discriminate]. now intros [= <-].
  - destruct (nameIs st (x :: c) nm); [now intros [= <-]|].
    intros H. apply IH in H. lia.
Qed.

Lemma findUp_self nm c : findUp st nm c = Some c -> nameIs st c nm = true.
Proof.
  destruct c as [|x c]; simpl.
  - destruct (nameIs st [] nm); [reflexivity | discriminate].
  - destruct (nameIs st (x :: c) nm); [reflexivity|].
    intros H. apply findUp_length in H. simpl in H. lia.
Qed.

Lemma findUp_below nm s pre : forall found,
  findUp st nm (pre ++ s) = Some found ->
  length found <= length s ->
  findUp st nm s = Some found
  /\ forall q, q <> [] -> (exists r, pre = r ++ q) -> nameIs st (q ++ s) nm = false.
Proof.
  induction pre as [|x pre IH]; intros found H Hlen.
  - split; [exact H|]. intros q Hq (r & Hr).
    destruct r, q; try discriminate; congruence.
  - cbn [app findUp] in H.
    destruct (nameIs st (x :: pre ++ s) nm) eqn:E.
    + injection H as <-. cbn [length] in Hlen. rewrite length_app in Hlen. lia.
    + destruct (IH _ H Hlen) as (Hs & Hq). split; [exact Hs|].
      intros q Hne (r & Hr). destruct r as [|y r].
      * cbn [app] in Hr. subst q. exact E.
      * cbn [app] in Hr. injection Hr as -> Hr. apply Hq; eauto.
Qed.

Lemma getPointersFrom_eq rec cur prev :
  getPointersFrom rec st cur prev
  = let* found :=
      (if nameIs st cur Nodes.Arguments then
         let* scope := getPredicateScope rec st prev in
         if Rec.has scope Keywords.Pointer then Ret (Some scope) else Ret None
       else Ret None) in
    match found with
    | Some scope => Ret scope
    | None =>
        match cur with
        | [] => Ret []
        | _ :: p => getPointersFrom rec st p cur
        end
    end.
Proof. destruct cur; reflexivity. Qed.

(** The walk of [getPointers] from a node below the child [k] of the
    innermost argument list [argsNode] asks for the predicate scope at that
    child. *)
Lemma getPointersFrom_climb rec k argsNode pre : forall prev,
  (forall q, q <> [] -> (exists r, pre ++ [k] = r ++ q) ->
             nameIs st (q ++ argsNode) Nodes.Arguments = false) ->
  nameIs st argsNode Nodes.Arguments = true ->
  getPointersFrom rec st (pre ++ k :: argsNode) prev
  = let* scope := getPredicateScope rec st (k :: argsNode) in
    if Rec.has scope Keywords.Pointer then Ret scope
    else match argsNode with
         | [] => Ret []
         | _ :: p => getPointersFrom rec st p argsNode
         end.
Proof.
  induction pre as [|x pre IH]; intros prev Hq Ha.
  - cbn [app]. rewrite getPointersFrom_eq.
    assert (E : nameIs st ([k] ++ argsNode) Nodes.Arguments = false)
      by (apply Hq; [discriminate | now exists []]).
    cbn [app] in E. rewrite E.
    cbn [bind]. rewrite getPointersFrom_eq, Ha.
    destruct (getPredicateScope rec st (k :: argsNode)) as [scope| |];
      cbn [bind]; try reflexivity.
    destruct (Rec.has scope Keywords.Pointer); reflexivity.
  - cbn [app]. rewrite getPointersFrom_eq.
    assert (E : nameIs st ((x :: pre ++ [k]) ++ argsNode) Nodes.Arguments = false)
      by (apply Hq; [discriminate | now exists []]).
    cbn [app] in E. rewrite <- app_assoc in E. cbn [app] in E. rewrite E.
    cbn [bind].
    apply IH; [|exact Ha].
    intros q Hne (r & Hr). apply Hq; [exact Hne|].
    exists (x :: r). cbn [app]. now rewrite Hr.
Qed.

Lemma getPointers_below rec p pre k argsNode :
  p = pre ++ k :: argsNode ->
  findUp st Nodes.Arguments p = Some argsNode ->
  getPointers rec st p
  = let* scope := getPredicateScope rec st (k :: argsNode) in
    if Rec.has scope Keywords.Pointer then Ret scope
    else match argsNode with
         | [] => Ret []
         | _ :: p' => getPointersFrom rec st p' argsNode
         end.
Proof.
  intros -> Hf.
  replace (pre ++ k :: argsNode) with ((pre ++ [k]) ++ argsNode) in Hf
    by (now rewrite <- app_assoc).
  destruct (findUp_below _ _ _ _ Hf (le_n _)) as (Hs & Hq).
  unfold getPointers. apply getPointersFrom_climb; [exact Hq|].
  now apply findUp_self.
Qed.

Lemma pointer_definition fuel p pt :
  Syntax.at_ (tree st) p = Some pt ->
  Syntax.name (Syntax.type pt) = Nodes.Pointer ->
  getDefinition (S fuel) st (Some p)
  = let* pointers := getPointers (getDefinition fuel st) st p in
    if Rec.has pointers (text st pt) then Ret (lookup pointers (text st pt))
    else Ret (scalar Kind.Any).
Proof.
  intros Ht Hn. simpl. unfold definition. rewrite Ht, Hn. reflexivity.
Qed.
End ImplicitParameter.

(** X14. Inside the predicate of a built-in that takes one ([filter(arr, ...)],
    [map], [reduce], ...: every name of [isPredicativeFunc]), the implicit
    parameter [#] has the type of the items of the array argument, provided
    the array is a slice whose item definition has a type and carries no
    name of its own. *)
Theorem implicit_parameter_has_item_type
    fuel st p pt pre k argsNode call fname a0 a1 i aa am :
  Syntax.at_ (tree st) p = Some pt ->
  Syntax.name (Syntax.type pt) = Nodes.Pointer ->
  text st pt = Keywords.Pointer ->
  p = pre ++ k :: argsNode ->
  findUp st Nodes.Arguments p = Some argsNode ->
  predicateSite st (k :: argsNode) call fname a0 a1 ->
  isPredicativeFunc fname = true ->
  getDefinition fuel st (Some a0) = Ret (Obj (SSlice i) aa am) ->
  typed i = true ->
  name (attrsOf i) = None ->
  getDefinition (S fuel) st (Some p) = Ret (withName i Keywords.Pointer).
Proof.
  intros Ht Hn Htxt Hp Hf Hsite Hpred Harr Hi Hname.
  destruct i as [|ish ia im]; [discriminate|]. cbn [attrsOf] in Hname.
  destruct (pointer_scope_unnamed fname ish ia im aa am Hpred Hi Hname)
    as (g & dargs & drets & da & dm & scope & Hdef & Hlen & Hk & Hscope & Hget).
  rewrite (pointer_definition st fuel p pt Ht Hn), Htxt.
  rewrite (getPointers_below st _ p pre k argsNode Hp Hf).
  rewrite (getPredicateScope_site _ st _ call fname a0 a1 g dargs drets da dm
             _ Hsite Hpred Hdef Hlen Hk Harr).
  rewrite Hscope. cbn [bind]. unfold Rec.has, lookup. rewrite Hget.
  cbn [bind]. rewrite Hget. reflexivity.
Qed.

Lemma implicit_parameter_has_item_type_witness :
  getDefinition 2 Sample.direct (Some [0; 3; 1; 0])
  = Ret (withName Sample.int Keywords.Pointer).
Proof.
  apply (implicit_parameter_has_item_type 1 Sample.direct [0; 3; 1; 0]
           (Syntax.T (Sample.expr Nodes.Pointer) 12 13 []) [0] 3 [1; 0] [0]
           "filter" [1; 1; 0] [3; 1; 0] Sample.int
           (mkAttrs (Some "arr") None None) None); try reflexivity.
  split; [now exists [1; 0]|].
  exists [1; 0], [1; 0], [0; 0]. do 3 eexists.
  repeat split; reflexivity.
Defined.

(** X15. The predicate scope files the implicit parameter under the name of
    the bound item when the item definition carries one: for an array whose
    items are named [n] (neither [#] nor [#acc]) and a built-in whose
    predicate takes the single parameter [#], an occurrence of [#] in the
    predicate finds no implicit parameter and resolves to any (when no
    argument list encloses the call). *)
Theorem named_item_hides_implicit_parameter
    fuel st p pt pre k argsNode call fname a0 a1 i aa am n :
  Syntax.at_ (tree st) p = Some pt ->
  Syntax.name (Syntax.type pt) = Nodes.Pointer ->
  text st pt = Keywords.Pointer ->
  p = pre ++ k :: argsNode ->
  findUp st Nodes.Arguments p = Some argsNode ->
  findUp st Nodes.Arguments (tl argsNode) = None ->
  predicateSite st (k :: argsNode) call fname a0 a1 ->
  isPredicativeFunc fname = true ->
  args (nth 1 (args (lookup BuiltIn.variables fname)) Null) = [BuiltIn.pointer] ->
  getDefinition fuel st (Some a0) = Ret (Obj (SSlice i) aa am) ->
  typed i = true ->
  name (attrsOf i) = Some n ->
  n <> Keywords.Pointer -> n <> Keywords.Accumulator ->
  getPredicateScope (getDefinition fuel st) st (k :: argsNode) = Ret [(n, i)]
  /\ getDefinition (S fuel) st (Some p) = Ret (scalar Kind.Any).
Proof.
  intros Ht Hn Htxt Hp Hf Hout Hsite Hpred Hone Harr Hi Hname Hnp Hna.
  destruct i as [|ish ia im]; [discriminate|]. cbn [attrsOf] in Hname.
  destruct (pointer_scope_named fname ish ia im aa am n Hpred Hone Hi Hname Hna)
    as (g & dargs & drets & da & dm & Hdef & Hlen & Hk & Hscope).
  assert (Hps : getPredicateScope (getDefinition fuel st) st (k :: argsNode)
                = Ret [(n, Obj ish ia im)]).
  { rewrite (getPredicateScope_site _ st _ call fname a0 a1 g dargs drets da dm
               _ Hsite Hpred Hdef Hlen Hk Harr).
    exact Hscope. }
  split; [exact Hps|].
  rewrite (pointer_definition st fuel p pt Ht Hn), Htxt.
  rewrite (getPointers_below st _ p pre k argsNode Hp Hf), Hps. cbn [bind].
  assert (Hno : Rec.has [(n, Obj ish ia im)] Keywords.Pointer = false).
  { unfold Rec.has. cbn [Rec.get].
    destruct (String.eqb n Keywords.Pointer) eqn:E; [|reflexivity].
    apply String.eqb_eq in E. contradiction. }
  rewrite Hno.
  destruct argsNode as [|j up]; [reflexivity|].
  cbn [tl] in Hout. rewrite (getPointersFrom_outside _ st up _ Hout).
  reflexivity.
Qed.

Lemma named_item_hides_implicit_parameter_witness :
  getPredicateScope (getDefinition 1 Fixture2.namedItems) Fixture2.namedItems
    [3; 1; 0] = Ret [("row", Fixture2.row)]
  /\ getDefinition 2 Fixture2.namedItems (Some [0; 3; 1; 0])
     = Ret (scalar Kind.Any).
Proof.
  apply (named_item_hides_implicit_parameter 1 Fixture2.namedItems [0; 3; 1; 0]
           (Syntax.T (Sample.expr Nodes.Pointer) 12 13 []) [0] 3 [1; 0] [0]
           "filter" [1; 1; 0] [3; 1; 0] Fixture2.row
           (mkAttrs (Some "arr") None None) None "row");
    try reflexivity; try discriminate.
  split; [now exists [1; 0]|].
  exists [1; 0], [1; 0], [0; 0]. do 3 eexists.
  repeat split; reflexivity.
Defined.

(** ** Expressions: further properties *)

Section Operators.
Variable fuel : nat.
Variable st : EditorState.

Lemma binary_definition q o a b ra rb :
  nameIs st q Nodes.BinaryExpr = true ->
  Syntax.getChild (tree st) q Groups.Op = Some o ->
  nameIs st o Nodes.ArithmeticOp = true ->
  Syntax.getChildren (tree st) q Groups.Expr = [a; b] ->
  getDefinition fuel st (Some a) = Ret ra ->
  getDefinition fuel st (Some b) = Ret rb ->
  getDefinition (S fuel) st (Some q)
  = let* rn := isNumber ra in
    let* both := (if rn then isNumber rb else Ret false) in
    if both then Ret (scalar Kind.Float)
    else if isEquals ra rb then Ret ra
    else Ret (scalar Kind.Any).
Proof.
  intros Hq Ho Hop Hcs Ha Hb.
  destruct (nameIs_at _ _ _ Hq) as (t & Ht & Hnm).
  destruct (nameIs_at _ _ _ Hop) as (ot & Hot & Honm).
  simpl. unfold definition. rewrite Ht, Hnm. cbn -[binary].
  unfold binary. rewrite Ho. unfold view. rewrite Hot. cbn [bind].
  rewrite Honm, Hcs. cbn -[getDefinition isEquals]. rewrite Ha. cbn [bind].
  rewrite Hb. reflexivity.
Qed.
End Operators.

(** X16. Arithmetic on two operands of numeric kinds is typed float, whatever
    the two kinds are: [int + int] is a float, not an int. *)
Theorem arithmetic_of_numbers_is_float fuel st q o a b ra rb :
  nameIs st q Nodes.BinaryExpr = true ->
  Syntax.getChild (tree st) q Groups.Op = Some o ->
  nameIs st o Nodes.ArithmeticOp = true ->
  Syntax.getChildren (tree st) q Groups.Expr = [a; b] ->
  getDefinition fuel st (Some a) = Ret ra ->
  getDefinition fuel st (Some b) = Ret rb ->
  isNumber ra = Ret true ->
  isNumber rb = Ret true ->
  getDefinition (S fuel) st (Some q) = Ret (scalar Kind.Float).
Proof.
  intros Hq Ho Hop Hcs Ha Hb Hra Hrb.
  rewrite (binary_definition fuel st q o a b ra rb Hq Ho Hop Hcs Ha Hb).
  rewrite Hra. cbn [bind]. rewrite Hrb. reflexivity.
Qed.

Lemma arithmetic_of_numbers_is_float_witness :
  getDefinition 2 Fixture3.mixedSum (Some [0]) = Ret (scalar Kind.Float).
Proof.
  apply (arithmetic_of_numbers_is_float 1 Fixture3.mixedSum [0] [1; 0]
           [0; 0] [2; 0] (withName Sample.int "a")
           (withName (scalar Kind.Int8) "b")); reflexivity.
Defined.

(** ** The scope the host builds *)

(** X17. In the scope [buildScope] makes, a variable of the host scope wins
    over the built-in of the same name, and every other built-in stays
    visible; without a host scope the built-ins are all there is. *)
Theorem buildScope_host_wins builtIn host k :
  NoDup (Rec.keys (variables builtIn)) ->
  NoDup (Rec.keys (variables host)) ->
  Rec.get (variables (buildScope builtIn (Some host))) k
  = match Rec.get (variables host) k with
    | Some v => Some v
    | None => Rec.get (variables builtIn) k
    end
  /\ Rec.get (variables (buildScope builtIn None)) k
     = Rec.get (variables builtIn) k.
Proof.
  intros Hb Hh. unfold buildScope. cbn [variables].
  rewrite !get_spread by (assumption || apply NoDup_nil).
  cbn [Rec.get].
  split; [destruct (Rec.get (variables host) k); [reflexivity|]|];
    destruct (Rec.get (variables builtIn) k); reflexivity.
Qed.

Lemma buildScope_host_wins_witness :
  Rec.get (variables (buildScope Fixture3.registry (Some Fixture3.host))) "filter"
  = match Rec.get (variables Fixture3.host) "filter" with
    | Some v => Some v
    | None => Rec.get (variables Fixture3.registry) "filter"
    end
  /\ Rec.get (variables (buildScope Fixture3.registry None)) "filter"
     = Rec.get (variables Fixture3.registry) "filter".
Proof.
  apply (buildScope_host_wins Fixture3.registry Fixture3.host "filter").
  - cbn. repeat constructor; cbn; intuition discriminate.
  - cbn. repeat constructor; cbn; intuition discriminate.
Defined.

(** ** Lint rules *)







(** X21. An index expression that the rule [noInvalidIndex] lets pass, over
    a source of known type, is one the resolver types: the source is a map
    and the expression has the type of its values, or the source is an
    array or a slice and the expression has the type of its items. *)
Theorem accepted_index_is_typed fuel st q source index rest src :
  nameIs st q Nodes.IndexExpr = true ->
  Syntax.getChildren (tree st) q Groups.Expr = source :: index :: rest ->
  getDefinition fuel st (Some source) = Ret src ->
  isUnknownType src = false ->
  noInvalidIndex fuel st q = Ret [] ->
  (type src = Ret Kind.Map
   /\ getDefinition (S fuel) st (Some q) = Ret (value src))
  \/ ((type src = Ret Kind.Array \/ type src = Ret Kind.Slice)
      /\ getDefinition (S fuel) st (Some q) = Ret (item src)).
Proof.
  intros Hq Hcs Hsrc Hknown H.
  destruct (nameIs_at _ _ _ Hq) as (t & Ht & Hnm).
  simpl. unfold definition. rewrite Ht, Hnm. cbn -[getDefinition].
  unfold Syntax.getChild. rewrite Hcs. cbn [hd_error]. rewrite Hsrc.
  cbn [bind].
  unfold noInvalidIndex in H. rewrite Hcs, Hsrc in H. cbn [bind] in H.
  destruct (getDefinition fuel st (Some index)) as [idx| |]; cbn [bind] in H;
    try discriminate.
  rewrite Hknown in H.
  destruct src as [|sh a me]; [discriminate|]. cbn [type bind] in H |- *.
  destruct (Kind.eqb (kindOfShape sh) Kind.Array) eqn:Ea;
    [apply kind_eqb_eq in Ea; rewrite Ea; cbn; right; auto|].
  destruct (Kind.eqb (kindOfShape sh) Kind.Slice) eqn:Es;
    [apply kind_eqb_eq in Es; rewrite Es; cbn; right; auto|].
  destruct (Kind.eqb (kindOfShape sh) Kind.Map) eqn:Em;
    [apply kind_eqb_eq in Em; rewrite Em; cbn; left; auto|].
  cbn [negb andb] in H. unfold view in H. rewrite Ht in H. discriminate H.
Qed.

Lemma accepted_index_is_typed_witness :
  (type (withName Sample.sliceInt "arr") = Ret Kind.Map
   /\ getDefinition 2 Fixture4.indexed (Some [0])
      = Ret (value (withName Sample.sliceInt "arr")))
  \/ ((type (withName Sample.sliceInt "arr") = Ret Kind.Array
       \/ type (withName Sample.sliceInt "arr") = Ret Kind.Slice)
      /\ getDefinition 2 Fixture4.indexed (Some [0])
         = Ret (item (withName Sample.sliceInt "arr"))).
Proof.
  apply (accepted_index_is_typed 1 Fixture4.indexed [0] [0; 0] [2; 0] []
           (withName Sample.sliceInt "arr")); reflexivity.
Defined.


